(** * sw_manager: rule emission and image provisioning

    A shallow embedding of [sw_manager.py]: the configuration records
    (Python dicts), the rule emission of [addDep], the launch command
    builders, the binary build action [makeBin], the image provisioning
    action [makeImage] and the mount transaction [copyImgFiles].

    Python dicts are finite maps from strings to tagged values.  Code
    that raises returns a [result]; code that talks to the outside world
    (subprocesses, the filesystem, the distribution builder) runs in a
    state-and-error monad whose state is the list of calls made so far. *)

From stdpp Require Import gmap strings list pretty.
From Stdlib Require Import Ascii String.

Local Open Scope string_scope.
Local Open Scope list_scope.

(** ** Python exceptions and results *)

Inductive exn :=
| KeyError (key : string)
| ValueError (msg : string)
| TypeError
| AttributeError
| CalledProcessError
| OSError.

Inductive result (A : Type) :=
| Ok (a : A)
| Err (e : exn).
Arguments Ok {A} a.
Arguments Err {A} e.

(** ** Configuration records *)

(** [FileSpec] and [RunSpec] of [util.config]: plain records. *)
Record FileSpec := mkFileSpec { src : string; dst : string }.

Record RunSpec := mkRunSpec { command : option string; path : option string }.

(** The values a configuration dict holds.  [VJobs] is the ['jobs'] dict:
    job name to job configuration, in insertion order. *)
#[local] Unset Elimination Schemes.
Inductive value :=
| VStr (s : string)
| VBool (b : bool)
| VFiles (fs : list FileSpec)
| VRunSpec (r : RunSpec)
| VBuilder (b : string)
| VJobs (js : list (string * gmap string value)).
#[local] Set Elimination Schemes.

Abbreviation config := (gmap string value).

(** [k in config] *)
Definition has_key (k : string) (c : config) : bool :=
  match c !! k with Some _ => true | None => false end.

(** [config[k]] *)
Definition getitem (c : config) (k : string) : result value :=
  match c !! k with
  | Some v => Ok v
  | None => Err (KeyError k)
  end.

(** ** Paths: [os.path.join] and [os.path.normpath] (posixpath) *)

Module Path.

Definition slash : ascii := "/"%char.

Definition startswith_slash (s : string) : bool :=
  match s with
  | String c _ => if decide (c = slash) then true else false
  | EmptyString => false
  end.

Fixpoint endswith_slash (s : string) : bool :=
  match s with
  | EmptyString => false
  | String c EmptyString => if decide (c = slash) then true else false
  | String _ s' => endswith_slash s'
  end.

(** [os.path.join(a, b)] for two arguments. *)
Definition join (a b : string) : string :=
  if startswith_slash b then b
  else if decide (a = "") then b
  else if endswith_slash a then a +:+ b
  else a +:+ "/" +:+ b.

(** [s.split('/')] *)
Fixpoint split (s : string) : list string :=
  match s with
  | EmptyString => [EmptyString]
  | String c s' =>
      if decide (c = slash) then EmptyString :: split s'
      else match split s' with
           | w :: ws => String c w :: ws
           | [] => [String c EmptyString]
           end
  end.

(** ['/'.join(comps)] *)
Fixpoint join_slash (comps : list string) : string :=
  match comps with
  | [] => ""
  | [c] => c
  | c :: cs => c +:+ "/" +:+ join_slash cs
  end.

(** The number of leading slashes [normpath] keeps: 0, 1, or 2 (exactly
    two leading slashes are preserved, three or more collapse to one). *)
Definition initial_slashes (p : string) : nat :=
  match p with
  | String a (String b (String c _)) =>
      if decide (a = slash) then
        if decide (b = slash) then
          if decide (c = slash) then 1 else 2
        else 1
      else 0
  | String a (String b EmptyString) =>
      if decide (a = slash) then
        if decide (b = slash) then 2 else 1
      else 0
  | String a EmptyString => if decide (a = slash) then 1 else 0
  | EmptyString => 0
  end.

(** The component loop of [normpath]; [new_comps] is kept newest first. *)
Fixpoint norm_comps (ini : nat) (comps new_comps : list string) : list string :=
  match comps with
  | [] => rev new_comps
  | comp :: rest =>
      if decide (comp = "" \/ comp = ".") then norm_comps ini rest new_comps
      else if decide (comp <> "..") then norm_comps ini rest (comp :: new_comps)
      else match new_comps with
           | [] => if decide (ini = 0) then norm_comps ini rest [comp]
                   else norm_comps ini rest []
           | last :: others =>
               if decide (last = "..") then norm_comps ini rest (comp :: new_comps)
               else norm_comps ini rest others
           end
  end.

Fixpoint slashes (n : nat) : string :=
  match n with
  | O => ""
  | S n' => "/" +:+ slashes n'
  end.

Definition normpath (p : string) : string :=
  if decide (p = "") then "."
  else
    let ini := initial_slashes p in
    let q := slashes ini +:+ join_slash (norm_comps ini (split p) []) in
    if decide (q = "") then "." else q.

End Path.

(** ** The state-and-error monad

    [M S A] is a computation over a mutable state [S] that returns an [A]
    or raises.  The state survives a raised exception, as the effects of
    a Python function do. *)

Definition M (S A : Type) : Type := S -> result A * S.

Definition ret {S A} (a : A) : M S A := fun s => (Ok a, s).

Definition raise {S A} (e : exn) : M S A := fun s => (Err e, s).

Definition bind {S A B} (m : M S A) (k : A -> M S B) : M S B :=
  fun s =>
    match m s with
    | (Ok a, s') => k a s'
    | (Err e, s') => (Err e, s')
    end.

(** A pure computation that may raise. *)
Definition lift {S A} (r : result A) : M S A := fun s => (r, s).

(** [try: body finally: cleanup].  The cleanup always runs; when it
    raises, its exception replaces whatever the body produced. *)
Definition try_finally {S A} (body : M S A) (cleanup : M S unit) : M S A :=
  fun s =>
    match body s with
    | (r, s') =>
        match cleanup s' with
        | (Ok _, s'') => (r, s'')
        | (Err e, s'') => (Err e, s'')
        end
    end.

(** [for x in xs: body(x)] *)
Fixpoint for_each {S A} (xs : list A) (body : A -> M S unit) : M S unit :=
  match xs with
  | [] => ret tt
  | x :: rest => bind (body x) (fun _ => for_each rest body)
  end.

Declare Scope py_scope.
Delimit Scope py_scope with py.
Notation "x <- m ;; k" := (bind m (fun x => k))
  (at level 100, m at next level, right associativity) : py_scope.
Notation "m ;;; k" := (bind m (fun _ => k))
  (at level 100, right associativity) : py_scope.

(** The same for pure results. *)
Definition rbind {A B} (r : result A) (k : A -> result B) : result B :=
  match r with
  | Ok a => k a
  | Err e => Err e
  end.

(** [v + s] and [s + v] for a string literal [s]: a [TypeError] unless
    [v] is a string. *)
Definition add_str (v : value) (s : string) : result value :=
  match v with
  | VStr a => Ok (VStr (a +:+ s))
  | _ => Err TypeError
  end.

Definition str_add (s : string) (v : value) : result value :=
  match v with
  | VStr a => Ok (VStr (s +:+ a))
  | _ => Err TypeError
  end.

(** [" ".join(cmd)]: every item must be a string. *)
Fixpoint join_space (cmd : list value) : result string :=
  match cmd with
  | [] => Ok ""
  | [VStr a] => Ok a
  | VStr a :: rest => rbind (join_space rest) (fun r => Ok (a +:+ " " +:+ r))
  | _ => Err TypeError
  end.

(** ** Build rules and [addDep] *)

(** The callables a rule's ['actions'] and ['uptodate'] lists hold, with
    the arguments they are bound to. *)
Inductive action :=
| ActMakeBin (c : config) (initramfs : bool)
| ActMakeImage (c : config).

Inductive check :=
| CheckLinuxUpToDate (c : config).

(** One dict appended to [loader.workloads]; [uptodate] is [None] where
    the dict has no such key. *)
Record rule := mkRule {
  name : value;
  actions : list action;
  targets : list value;
  file_dep : list value;
  task_dep : list value;
  uptodate : option (list check)
}.

(** What [addDep] asks the host filesystem: [os.path.isdir],
    [os.path.islink], and the [(root, dirs, files)] triples of [os.walk]. *)
Record filesys := mkFilesys {
  isdir : string -> bool;
  islink : string -> bool;
  walk : string -> list (string * list string * list string)
}.

(** [loader.workloads.append(r)] *)
Definition append_rule (r : rule) : M (list rule) unit :=
  fun ws => (Ok tt, ws ++ [r]).

(** The [file_deps] one [files] entry contributes: a directory is walked
    and every listed file that is not a symlink is kept; anything else is
    kept unless it is a symlink. *)
Definition walk_deps (fs : filesys) (top : string) : list string :=
  flat_map
    (fun '(root, _, files) =>
       flat_map
         (fun f =>
            let fdep := Path.join root f in
            if islink fs fdep then [] else [fdep])
         files)
    (walk fs top).

Definition spec_deps (fs : filesys) (fSpec : FileSpec) : list string :=
  if isdir fs (src fSpec) then walk_deps fs (src fSpec)
  else if islink fs (src fSpec) then [] else [src fSpec].

(** [for fSpec in config['files']]: the value has to be iterable, and each
    item needs a [src] attribute. *)
Definition iter_files (v : value) : result (list FileSpec) :=
  match v with
  | VFiles fs => Ok fs
  | VStr s => if decide (s = "") then Ok [] else Err AttributeError
  | VJobs js => match js with [] => Ok [] | _ => Err AttributeError end
  | _ => Err TypeError
  end.

(** [config['runSpec'].path] *)
Definition runSpec_path (v : value) : result (option string) :=
  match v with
  | VRunSpec r => Ok (path r)
  | _ => Err AttributeError
  end.

Definition opt_list {A} (o : option A) : list A :=
  match o with Some a => [a] | None => [] end.

Section AddDep.
Local Open Scope py_scope.
Variable fs : filesys.

Definition addDep_bin (config : config) : M (list rule) unit :=
  let file_deps := opt_list (config !! "linux-config") in
  let task_deps := [] in
  nm <- lift (getitem config "bin") ;;
  tg <- lift (getitem config "bin") ;;
  append_rule {| name := nm;
                 actions := [ActMakeBin config false];
                 targets := [tg];
                 file_dep := file_deps;
                 task_dep := task_deps;
                 uptodate := Some [CheckLinuxUpToDate config] |}.

Definition addDep_initramfs (config : config) : M (list rule) unit :=
  if has_key "initramfs" config then
    fd <- lift (getitem config "img") ;;
    td <- lift (getitem config "img") ;;
    let file_deps := [fd] ++ opt_list (config !! "linux-config") in
    let task_deps := [td] in
    nm <- lift (rbind (getitem config "bin") (fun b => add_str b "-initramfs")) ;;
    tg <- lift (rbind (getitem config "bin") (fun b => add_str b "-initramfs")) ;;
    append_rule {| name := nm;
                   actions := [ActMakeBin config true];
                   targets := [tg];
                   file_dep := file_deps;
                   task_dep := task_deps;
                   uptodate := None |}
  else ret tt.

(** The dependencies of the image rule, in the order the code appends
    them: [(file_deps, task_deps)]. *)
Definition image_deps (config : config) : result (list value * list value) :=
  let task_deps := opt_list (config !! "base-img") in
  let file_deps := opt_list (config !! "base-img") in
  rbind (match config !! "files" with
         | Some v =>
             rbind (iter_files v) (fun l =>
               Ok (file_deps ++ map VStr (flat_map (spec_deps fs) l)))
         | None => Ok file_deps
         end) (fun file_deps =>
  rbind (match config !! "guest-init" with
         | Some gi =>
             rbind (getitem config "bin") (fun b =>
               Ok (file_deps ++ [gi], task_deps ++ [b]))
         | None => Ok (file_deps, task_deps)
         end) (fun '(file_deps, task_deps) =>
  rbind (match config !! "runSpec" with
         | Some rs =>
             rbind (runSpec_path rs) (fun p =>
               match p with
               | Some p => Ok (file_deps ++ [VStr p])
               | None => Ok file_deps
               end)
         | None => Ok file_deps
         end) (fun file_deps =>
  Ok (file_deps ++ opt_list (config !! "cfg-file"), task_deps)))).

Definition addDep_img (config : config) : M (list rule) unit :=
  match config !! "img" with
  | Some img =>
      deps <- lift (image_deps config) ;;
      append_rule {| name := img;
                     actions := [ActMakeImage config];
                     targets := [img];
                     file_dep := fst deps;
                     task_dep := snd deps;
                     uptodate := None |}
  | None => ret tt
  end.

(** [addDep(loader, config)]; the state is [loader.workloads]. *)
Definition addDep (config : config) : M (list rule) unit :=
  addDep_bin config ;;;
  addDep_initramfs config ;;;
  addDep_img config.

End AddDep.

(** ** Launch commands *)

(** The double-quote character. *)
Definition dquote : ascii := ascii_of_nat 34.

(** [getSpikeCmd(config, initramfs)] *)
Definition getSpikeCmd (config : config) (initramfs : bool) : result value :=
  if initramfs then
    rbind (getitem config "bin") (fun b =>
    rbind (str_add "spike -p4 -m4096 " b) (fun s =>
    add_str s "-initramfs"))
  else if negb (has_key "img" config) then
    rbind (getitem config "bin") (fun b =>
    str_add "spike -p4 -m4096 " b)
  else Err (ValueError "Spike does not support disk-based configurations").

(** [getQemuCmd(config, initramfs)] *)
Definition getQemuCmd (config : config) (initramfs : bool) : result string :=
  rbind (if initramfs
         then rbind (getitem config "bin") (fun b => add_str b "-initramfs")
         else getitem config "bin") (fun exe =>
  let cmd := [VStr "qemu-system-riscv64";
              VStr "-nographic";
              VStr "-smp"; VStr "4";
              VStr "-machine"; VStr "virt";
              VStr "-m"; VStr "4G";
              VStr "-kernel"; exe;
              VStr "-object"; VStr "rng-random,filename=/dev/urandom,id=rng0";
              VStr "-device"; VStr "virtio-rng-device,rng=rng0";
              VStr "-device"; VStr "virtio-net-device,netdev=usernet";
              VStr "-netdev"; VStr "user,id=usernet,hostfwd=tcp::10000-:22"] in
  rbind (if has_key "img" config && negb initramfs then
           rbind (getitem config "img") (fun img =>
           rbind (str_add "file=" img) (fun s =>
           rbind (add_str s ",format=raw,id=hd0") (fun drive =>
           Ok (cmd ++ [VStr "-device"; VStr "virtio-blk-device,drive=hd0";
                       VStr "-drive"; drive]
                   ++ [VStr "-append"; VStr (String dquote ("ro root=/dev/vda" +:+ String dquote ""))]))))
         else Ok cmd) (fun cmd =>
  join_space cmd)).

(** ** [main]: pushing the [--initramfs] option down *)

(** [targetCfg['jobs'].values()], each job updated in place by
    [j['initramfs'] = True].  The job dicts live inside [targetCfg], so
    the update is an update of the ['jobs'] entry. *)
Definition jobs_set_initramfs (v : value) : result value :=
  match v with
  | VJobs js => Ok (VJobs (map (fun nj => (fst nj, <["initramfs" := VBool true]> (snd nj))) js))
  | _ => Err AttributeError
  end.

(** Lines 66-71 of [main]: what [args.command] and [args.initramfs] do
    to [targetCfg].  [cfgs[args.config_file]] hands out the stored record,
    not a copy, so the record returned here is the one [buildDepGraph]
    later reads under that path, jobs included. *)
Definition main_initramfs (command : option string) (initramfs : bool)
    (targetCfg : config) : result config :=
  if decide (command = Some "build" \/ command = Some "launch") then
    if initramfs then
      let targetCfg := <["initramfs" := VBool true]> targetCfg in
      match targetCfg !! "jobs" with
      | Some jobs =>
          rbind (jobs_set_initramfs jobs) (fun jobs' =>
          Ok (<["jobs" := jobs']> targetCfg))
      | None => Ok targetCfg
      end
    else Ok targetCfg
  else Ok targetCfg.

(** The job records of a configuration ([config['jobs'].values()]). *)
Definition jobs_of (c : config) : list config :=
  match c !! "jobs" with
  | Some (VJobs js) => map snd js
  | _ => []
  end.

(** ** The outside world *)

(** The calls the build actions make to the outside: [util.run],
    [subprocess.check_call], [shutil], [os], the helpers of [util.util],
    the distribution builder, [tempfile], and the log. *)
Inductive call :=
| Run (argv : list string) (cwd : option string)
| RunShell (cmd : string) (cwd : option string)
| CheckCall (cmd : string)
| ShutilCopy (s d : string)
| ShutilRmtree (p : string)
| OsMkdir (p : string)
| ToCpio (c : config) (img : value) (out : string)
| ConvertInitramfsConfig (cfgPath cpio : string)
| GenerateBootScriptOverlay (builder : string) (script : option string)
| GenRunScript (cmd : string)
| TmpOpen (suffix : string)
| TmpClose (nm : string)
| LogInfo (msg : string)
| Print (msg : string).

(** The calls made so far, newest first. *)
Abbreviation trace := (list call).

(** The constants of [util.util] and the answers of the outside world.
    Every answer may depend on everything done before. *)
Record world := mkWorld {
  mnt : string;
  jlevel : string;
  getuid : nat;
  str_files : value -> string;
  path_exists : trace -> string -> bool;
  call_fails : trace -> call -> option exn;
  call_returns : trace -> call -> string
}.

(** [str(v)] is needed for strings only. *)
Definition as_str (v : value) : result string :=
  match v with
  | VStr s => Ok s
  | _ => Err TypeError
  end.

Section Actions.
Local Open Scope py_scope.
Variable W : world.

(** Make a call: it is recorded, and it raises or returns as the world
    says. *)
Definition do (c : call) : M trace string :=
  fun t =>
    match call_fails W t c with
    | Some e => (Err e, c :: t)
    | None => (Ok (call_returns W t c), c :: t)
    end.

(** [log.info] and [print] only leave a record. *)
Definition say (c : call) : M trace unit :=
  fun t => (Ok tt, c :: t).

(** [os.path.exists(p)] *)
Definition exists_ (p : string) : M trace bool :=
  fun t => (Ok (path_exists W t p), t).

Definition when (b : bool) (m : M trace unit) : M trace unit :=
  if b then m else ret tt.

(** *** [copyImgFiles] *)

Definition mount_cmd (img : string) : call :=
  Run ["sudo"; "mount"; "-o"; "loop"; img; mnt W] None.

Definition umount_cmd : call :=
  Run ["sudo"; "umount"; mnt W] None.

(** The path inside the mounted image: [os.path.normpath(mnt + p)]. *)
Definition in_mount (p : string) : string :=
  Path.normpath (mnt W +:+ p).

Definition rsync_in (f : FileSpec) : call :=
  RunShell ("sudo rsync -a --chown=root:root " +:+ src f +:+ " " +:+ in_mount (dst f)) None.

Definition rsync_out (f : FileSpec) : call :=
  let uid := getuid W in
  RunShell ("sudo rsync -a --chown=" +:+ pretty uid +:+ ":" +:+ pretty uid +:+ " "
            +:+ in_mount (src f) +:+ " " +:+ dst f) None.

(** The body of the [for] loop. *)
Definition copy_one (direction : string) (f : FileSpec) : M trace unit :=
  if decide (direction = "in") then
    do (rsync_in f) ;;; ret tt
  else if decide (direction = "out") then
    do (rsync_out f) ;;; ret tt
  else raise (ValueError "direction option must be either 'in' or 'out'").

(** The statements before the [try]. *)
Definition mount_image (img : string) : M trace unit :=
  e <- exists_ (mnt W) ;;
  when (negb e) (do (Run ["mkdir"; mnt W] None) ;;; ret tt) ;;;
  do (mount_cmd img) ;;; ret tt.

Definition copyImgFiles (img : string) (files : list FileSpec) (direction : string)
    : M trace unit :=
  mount_image img ;;;
  try_finally
    (for_each files (copy_one direction))
    (do umount_cmd ;;; ret tt).

(** *** [applyOverlay] *)

(** [FileSpec(src=os.path.join(overlay, "*"), dst='/')] *)
Definition overlay_spec (overlay : string) : FileSpec :=
  mkFileSpec (Path.join overlay "*") "/".

Definition applyOverlay (img : string) (overlay : string) : M trace unit :=
  copyImgFiles img [overlay_spec overlay] "in".

(** *** [makeBin] *)

Definition makeBin (config : config) (initramfs : bool) : M trace unit :=
  match config !! "linux-config" with
  | None => ret tt
  | Some linux_config =>
      linux_src <- lift (rbind (getitem config "linux-src") as_str) ;;
      let linuxCfg := Path.join linux_src ".config" in
      lc <- lift (as_str linux_config) ;;
      do (ShutilCopy lc linuxCfg) ;;;
      (if initramfs then
         tmpCpio <- do (TmpOpen ".cpio") ;;
         try_finally
           (img <- lift (getitem config "img") ;;
            do (ToCpio config img tmpCpio) ;;;
            do (ConvertInitramfsConfig linuxCfg tmpCpio) ;;;
            do (Run ["make"; "ARCH=riscv"; "olddefconfig"] (Some linux_src)) ;;;
            do (Run ["make"; "ARCH=riscv"; "vmlinux"; jlevel W] (Some linux_src)) ;;;
            ret tt)
           (do (TmpClose tmpCpio) ;;; ret tt)
       else
         do (Run ["make"; "ARCH=riscv"; "vmlinux"; jlevel W] (Some linux_src)) ;;; ret tt) ;;;
      e <- exists_ "riscv-pk/build" ;;
      when e (do (ShutilRmtree "riscv-pk/build") ;;; ret tt) ;;;
      do (OsMkdir "riscv-pk/build") ;;;
      do (Run ["../configure"; "--host=riscv64-unknown-elf";
               "--with-payload=" +:+ Path.join linux_src "vmlinux"]
              (Some "riscv-pk/build")) ;;;
      do (Run ["make"; jlevel W] (Some "riscv-pk/build")) ;;;
      (if initramfs then
         b <- lift (rbind (rbind (getitem config "bin") (fun b => add_str b "-initramfs")) as_str) ;;
         do (ShutilCopy "riscv-pk/build/bbl" b) ;;; ret tt
       else
         b <- lift (rbind (getitem config "bin") as_str) ;;
         do (ShutilCopy "riscv-pk/build/bbl" b) ;;; ret tt)
  end.

(** *** [makeImage] *)

(** [config['builder'].generateBootScriptOverlay(script)] *)
Definition generateBootScriptOverlay (config : config) (script : option string)
    : M trace string :=
  b <- lift (getitem config "builder") ;;
  match b with
  | VBuilder b => do (GenerateBootScriptOverlay b script)
  | _ => raise AttributeError
  end.

Definition makeImage_base (config : config) : M trace unit :=
  when (has_key "base-img" config)
    (s <- lift (rbind (getitem config "base-img") as_str) ;;
     d <- lift (rbind (getitem config "img") as_str) ;;
     do (ShutilCopy s d) ;;; ret tt).

Definition makeImage_files (config : config) : M trace unit :=
  when (has_key "files" config)
    (fl <- lift (getitem config "files") ;;
     say (LogInfo ("Applying file list: " +:+ str_files W fl)) ;;;
     img <- lift (rbind (getitem config "img") as_str) ;;
     files <- lift (rbind (getitem config "files") iter_files) ;;
     copyImgFiles img files "in").

Definition makeImage_init (config : config) : M trace unit :=
  when (has_key "guest-init" config)
    (gi <- lift (rbind (getitem config "guest-init") as_str) ;;
     say (LogInfo ("Applying init script: " +:+ gi)) ;;;
     e <- exists_ gi ;;
     when (negb e) (raise (ValueError ("Init script " +:+ gi +:+ " not found."))) ;;;
     init_overlay <- generateBootScriptOverlay config (Some gi) ;;
     img <- lift (rbind (getitem config "img") as_str) ;;
     applyOverlay img init_overlay ;;;
     b <- lift (rbind (getitem config "bin") as_str) ;;
     say (Print ("Launching: " +:+ b)) ;;;
     cmd <- lift (getQemuCmd config false) ;;
     do (CheckCall cmd) ;;;
     run_overlay <- generateBootScriptOverlay config None ;;
     img <- lift (rbind (getitem config "img") as_str) ;;
     applyOverlay img run_overlay).

(** [spec.command], [spec.path] *)
Definition as_runSpec (v : value) : result RunSpec :=
  match v with
  | VRunSpec r => Ok r
  | _ => Err AttributeError
  end.

Definition makeImage_run (config : config) : M trace unit :=
  when (has_key "runSpec" config)
    (spec <- lift (rbind (getitem config "runSpec") as_runSpec) ;;
     scriptPath <-
       match command spec with
       | Some c =>
           say (LogInfo ("Applying run command: " +:+ c)) ;;;
           do (GenRunScript c)
       | None =>
           match path spec with
           | Some p => say (LogInfo ("Applying run script: " +:+ p)) ;;; ret p
           | None => raise TypeError
           end
       end ;;
     e <- exists_ scriptPath ;;
     when (negb e) (raise (ValueError ("Run script " +:+ scriptPath +:+ " not found."))) ;;;
     run_overlay <- generateBootScriptOverlay config (Some scriptPath) ;;
     img <- lift (rbind (getitem config "img") as_str) ;;
     applyOverlay img run_overlay).

Definition makeImage (config : config) : M trace unit :=
  makeImage_base config ;;;
  makeImage_files config ;;;
  makeImage_init config ;;;
  makeImage_run config.

End Actions.

(** * Properties *)

(** ** Stepping through the monad *)

Lemma bind_Ok {S A B} (m : M S A) (k : A -> M S B) s a s' :
  m s = (Ok a, s') -> bind m k s = k a s'.
Proof. intros H. unfold bind. now rewrite H. Qed.

Lemma bind_Err {S A B} (m : M S A) (k : A -> M S B) s e s' :
  m s = (Err e, s') -> bind m k s = (Err e, s').
Proof. intros H. unfold bind. now rewrite H. Qed.

Lemma bind_inv_Ok {S A B} (m : M S A) (k : A -> M S B) s b s' :
  bind m k s = (Ok b, s') ->
  exists a s1, m s = (Ok a, s1) /\ k a s1 = (Ok b, s').
Proof.
  unfold bind. destruct (m s) as [[a|e] s1]; intros H.
  - exists a, s1. split; [reflexivity | exact H].
  - discriminate H.
Qed.

Lemma lift_inv_Ok {S A} (r : result A) (s s' : S) a :
  lift r s = (Ok a, s') -> r = Ok a /\ s' = s.
Proof. unfold lift. intros H. inversion H. split; reflexivity. Qed.

Lemma rbind_inv_Ok {A B} (r : result A) (k : A -> result B) b :
  rbind r k = Ok b -> exists a, r = Ok a /\ k a = Ok b.
Proof.
  destruct r as [a|e]; simpl; intros H; [eauto | discriminate].
Qed.

Lemma has_key_true k (c : config) : has_key k c = true <-> is_Some (c !! k).
Proof.
  unfold has_key. destruct (c !! k); split; intros H; try reflexivity.
  - eauto.
  - discriminate.
  - destruct H; discriminate.
Qed.

(** ** [getSpikeCmd] *)

(** C10: with [initramfs=False], [getSpikeCmd] raises a [ValueError]
    exactly when the configuration has an [img] field, and returns the spike
    command on [bin] otherwise; with [initramfs=True] it returns the spike
    command on [bin + "-initramfs"], whether or not [img] is present. *)
Theorem getSpikeCmd_spec (config : config) (b : string)
    (Hbin : config !! "bin" = Some (VStr b)) :
  ((exists msg, getSpikeCmd config false = Err (ValueError msg))
     <-> is_Some (config !! "img")) /\
  getSpikeCmd config false =
    (if has_key "img" config
     then Err (ValueError "Spike does not support disk-based configurations")
     else Ok (VStr ("spike -p4 -m4096 " +:+ b))) /\
  getSpikeCmd config true = Ok (VStr (("spike -p4 -m4096 " +:+ b) +:+ "-initramfs")).
Proof.
  unfold getSpikeCmd, getitem, has_key. rewrite Hbin. simpl.
  destruct (config !! "img") as [v|]; simpl; repeat split; eauto.
  - intros [msg H]. discriminate H.
  - intros [v H]. discriminate H.
Qed.

(** The [ValueError] does not need [bin]: it is raised for every record
    with an [img] field, and for no other. *)
Lemma getSpikeCmd_ValueError (config : config) :
  (exists msg, getSpikeCmd config false = Err (ValueError msg))
    <-> is_Some (config !! "img").
Proof.
  unfold getSpikeCmd, getitem, has_key.
  destruct (config !! "img") as [v|]; simpl; split; eauto.
  - intros [msg H]. destruct (config !! "bin") as [[]|]; simpl in H; discriminate H.
  - intros [v H]. discriminate H.
Qed.

Definition spike_cfg : config := <["bin" := VStr "hello-bin"]> ∅.

Lemma getSpikeCmd_spec_witness :
  getSpikeCmd spike_cfg false = Ok (VStr "spike -p4 -m4096 hello-bin") /\
  getSpikeCmd spike_cfg true = Ok (VStr "spike -p4 -m4096 hello-bin-initramfs").
Proof.
  destruct (getSpikeCmd_spec spike_cfg "hello-bin" eq_refl) as (_ & H1 & H2).
  split; [exact H1 | exact H2].
Defined.

(** ** [makeBin] *)

(** C7: without a [linux-config] field [makeBin] does nothing: it returns
    normally and makes no call at all (no copy, no change of the build
    tree, no toolchain), whatever [initramfs] is. *)
Theorem makeBin_noop (W : world) (config : config) (initramfs : bool) (t : trace)
    (Hno : config !! "linux-config" = None) :
  makeBin W config initramfs t = (Ok tt, t).
Proof. unfold makeBin. rewrite Hno. reflexivity. Qed.

(** A world in which every path exists and every call succeeds. *)
Definition calm_world : world :=
  mkWorld "/mnt" "-j4" 1000 (fun _ => "[...]")
    (fun _ _ => true) (fun _ _ => None)
    (fun _ c =>
       match c with
       | GenerateBootScriptOverlay _ None => "/overlay/none"
       | GenerateBootScriptOverlay _ (Some s) => "/overlay" +:+ s
       | GenRunScript _ => "/tmp/run.sh"
       | TmpOpen _ => "/tmp/x.cpio"
       | _ => ""
       end).

Lemma makeBin_noop_witness :
  makeBin calm_world spike_cfg true [] = (Ok tt, []).
Proof. apply (makeBin_noop calm_world spike_cfg true []). reflexivity. Defined.

(** With [linux-config] the action does work: here, the plain build. *)
Example makeBin_builds :
  snd (makeBin calm_world
         (<["linux-config" := VStr "/w/linux.cfg"]>
            (<["linux-src" := VStr "/linux"]> spike_cfg)) false []) =
  [ShutilCopy "riscv-pk/build/bbl" "hello-bin";
   Run ["make"; "-j4"] (Some "riscv-pk/build");
   Run ["../configure"; "--host=riscv64-unknown-elf"; "--with-payload=/linux/vmlinux"]
       (Some "riscv-pk/build");
   OsMkdir "riscv-pk/build";
   ShutilRmtree "riscv-pk/build";
   Run ["make"; "ARCH=riscv"; "vmlinux"; "-j4"] (Some "/linux");
   ShutilCopy "/w/linux.cfg" "/linux/.config"].
Proof. vm_compute. reflexivity. Qed.

(** ** [addDep] *)

(** The three dicts [addDep] appends, as functions of what they are built
    from. *)
Definition bin_rule (config : config) (bin : value) : rule :=
  {| name := bin;
     actions := [ActMakeBin config false];
     targets := [bin];
     file_dep := opt_list (config !! "linux-config");
     task_dep := [];
     uptodate := Some [CheckLinuxUpToDate config] |}.

Definition initramfs_rule (config : config) (bin : string) (img : value) : rule :=
  {| name := VStr (bin +:+ "-initramfs");
     actions := [ActMakeBin config true];
     targets := [VStr (bin +:+ "-initramfs")];
     file_dep := img :: opt_list (config !! "linux-config");
     task_dep := [img];
     uptodate := None |}.

Definition image_rule (config : config) (img : value) (fd td : list value) : rule :=
  {| name := img;
     actions := [ActMakeImage config];
     targets := [img];
     file_dep := fd;
     task_dep := td;
     uptodate := None |}.

Lemma addDep_bin_Ok (config : config) (b : value) (ws : list rule) :
  config !! "bin" = Some b ->
  addDep_bin config ws = (Ok tt, ws ++ [bin_rule config b]).
Proof.
  intros Hb. unfold addDep_bin, bind, lift, getitem, append_rule.
  rewrite Hb. reflexivity.
Qed.

Lemma addDep_bin_KeyError (config : config) (ws : list rule) :
  config !! "bin" = None ->
  addDep_bin config ws = (Err (KeyError "bin"), ws).
Proof.
  intros Hb. unfold addDep_bin, bind, lift, getitem. rewrite Hb. reflexivity.
Qed.

Lemma addDep_initramfs_absent (config : config) (ws : list rule) :
  config !! "initramfs" = None ->
  addDep_initramfs config ws = (Ok tt, ws).
Proof.
  intros Hi. unfold addDep_initramfs, has_key. rewrite Hi. reflexivity.
Qed.

Lemma addDep_initramfs_Ok (config : config) (b : string) (img : value) (ws : list rule) :
  is_Some (config !! "initramfs") ->
  config !! "bin" = Some (VStr b) ->
  config !! "img" = Some img ->
  addDep_initramfs config ws = (Ok tt, ws ++ [initramfs_rule config b img]).
Proof.
  intros [v Hi] Hb Him.
  unfold addDep_initramfs, has_key, bind, lift, getitem, rbind, append_rule.
  rewrite Hi, Him, Hb. reflexivity.
Qed.

Lemma addDep_initramfs_KeyError (config : config) (ws : list rule) :
  is_Some (config !! "initramfs") ->
  config !! "img" = None ->
  addDep_initramfs config ws = (Err (KeyError "img"), ws).
Proof.
  intros [v Hi] Him.
  unfold addDep_initramfs, has_key, bind, lift, getitem.
  rewrite Hi, Him. reflexivity.
Qed.

(** C9: a record with an [initramfs] field and no [img] field makes
    [addDep] fail with a [KeyError]: on [img], after the plain binary rule
    was appended and before any initramfs rule is, when the record has a
    [bin]; on [bin], with nothing appended, when it has not. *)
Theorem addDep_initramfs_needs_img (fs : filesys) (config : config) (ws : list rule)
    (Hi : is_Some (config !! "initramfs")) (Hno : config !! "img" = None) :
  match config !! "bin" with
  | Some b => addDep fs config ws = (Err (KeyError "img"), ws ++ [bin_rule config b])
  | None => addDep fs config ws = (Err (KeyError "bin"), ws)
  end.
Proof.
  destruct (config !! "bin") as [b|] eqn:Hb; unfold addDep.
  - rewrite (bind_Ok _ _ _ _ _ (addDep_bin_Ok config b ws Hb)).
    apply bind_Err. now apply addDep_initramfs_KeyError.
  - apply bind_Err. now apply addDep_bin_KeyError.
Qed.

Definition no_files : filesys := mkFilesys (fun _ => false) (fun _ => false) (fun _ => []).

Definition bare_initramfs_cfg : config :=
  <["initramfs" := VBool true]> (<["bin" := VStr "bare-bin"]> ∅).

Lemma addDep_initramfs_needs_img_witness :
  addDep no_files bare_initramfs_cfg [] =
    (Err (KeyError "img"), [bin_rule bare_initramfs_cfg (VStr "bare-bin")]).
Proof.
  apply (addDep_initramfs_needs_img no_files bare_initramfs_cfg []).
  - exists (VBool true). reflexivity.
  - reflexivity.
Defined.

(** *** The image rule *)

(** The parts of the image rule's dependencies, named. *)
Definition files_deps (fs : filesys) (config : config) : list value :=
  match config !! "files" with
  | Some (VFiles l) => map VStr (flat_map (spec_deps fs) l)
  | _ => []
  end.

Definition runSpec_dep (config : config) : list value :=
  match config !! "runSpec" with
  | Some (VRunSpec r) => match path r with Some p => [VStr p] | None => [] end
  | _ => []
  end.

Definition image_file_deps (fs : filesys) (config : config) : list value :=
  opt_list (config !! "base-img") ++ files_deps fs config
    ++ opt_list (config !! "guest-init") ++ runSpec_dep config
    ++ opt_list (config !! "cfg-file").

Definition image_task_deps (config : config) : list value :=
  opt_list (config !! "base-img")
    ++ (if has_key "guest-init" config then opt_list (config !! "bin") else []).

(** [files] is a list of [FileSpec]s and [runSpec] is a [RunSpec], where
    present. *)
Definition typed_fields (config : config) : bool :=
  match config !! "files" with
  | None | Some (VFiles _) => true
  | _ => false
  end &&
  match config !! "runSpec" with
  | None | Some (VRunSpec _) => true
  | _ => false
  end.

Lemma image_deps_Ok (fs : filesys) (config : config) (b : value) :
  config !! "bin" = Some b ->
  typed_fields config = true ->
  image_deps fs config = Ok (image_file_deps fs config, image_task_deps config).
Proof.
  intros Hb Ht. apply andb_prop in Ht as [Hf Hr].
  unfold image_deps, image_file_deps, image_task_deps, files_deps, runSpec_dep,
    has_key, getitem.
  rewrite Hb.
  destruct (config !! "files") as [[]|]; try discriminate Hf;
  destruct (config !! "runSpec") as [[]|]; try discriminate Hr;
  destruct (config !! "guest-init"); simpl;
  try match goal with |- context [path ?r] => destruct (path r) end; simpl;
  rewrite <- ?app_assoc, ?app_nil_r; reflexivity.
Qed.

Lemma addDep_img_Ok (fs : filesys) (config : config) (b img : value) (ws : list rule) :
  config !! "bin" = Some b ->
  config !! "img" = Some img ->
  typed_fields config = true ->
  addDep_img fs config ws =
    (Ok tt, ws ++ [image_rule config img (image_file_deps fs config) (image_task_deps config)]).
Proof.
  intros Hb Him Ht. unfold addDep_img. rewrite Him.
  unfold bind, lift. rewrite (image_deps_Ok fs config b Hb Ht). reflexivity.
Qed.

(** The rules that come before the image rule. *)
Definition bin_rules (config : config) (b : string) (img : value) : list rule :=
  bin_rule config (VStr b)
    :: (if has_key "initramfs" config then [initramfs_rule config b img] else []).

Lemma addDep_Ok (fs : filesys) (config : config) (b : string) (img : value) (ws : list rule) :
  config !! "bin" = Some (VStr b) ->
  config !! "img" = Some img ->
  typed_fields config = true ->
  addDep fs config ws =
    (Ok tt, (ws ++ bin_rules config b img)
              ++ [image_rule config img (image_file_deps fs config) (image_task_deps config)]).
Proof.
  intros Hb Him Ht. unfold addDep.
  rewrite (bind_Ok _ _ _ _ _ (addDep_bin_Ok config _ ws Hb)).
  unfold bin_rules.
  destruct (has_key "initramfs" config) eqn:Hi.
  - apply has_key_true in Hi.
    rewrite (bind_Ok _ _ _ _ _ (addDep_initramfs_Ok config b img _ Hi Hb Him)).
    rewrite (addDep_img_Ok fs config _ img _ Hb Him Ht).
    now rewrite <- !app_assoc.
  - assert (Hn : config !! "initramfs" = None).
    { unfold has_key in Hi. destruct (config !! "initramfs"); [discriminate | reflexivity]. }
    rewrite (bind_Ok _ _ _ _ _ (addDep_initramfs_absent config _ Hn)).
    rewrite (addDep_img_Ok fs config _ img _ Hb Him Ht).
    now rewrite <- !app_assoc.
Qed.

(** The claim of C3, word for word: the file dependencies are the
    expanded [files], the [guest-init] path and the [runSpec] path, and
    nothing else; the task dependencies are the [base-img] target and
    nothing else. *)
Definition claimed_file_deps (fs : filesys) (config : config) : list value :=
  files_deps fs config ++ opt_list (config !! "guest-init") ++ runSpec_dep config.

Definition claimed_task_deps (config : config) : list value :=
  opt_list (config !! "base-img").

Definition image_rule_as_claimed (fs : filesys) (config : config) : Prop :=
  forall img ws ws' r,
    config !! "img" = Some img ->
    addDep fs config ws = (Ok tt, ws') ->
    last ws' = Some r ->
    (forall x, In x (file_dep r) <-> In x (claimed_file_deps fs config)) /\
    (forall x, In x (task_dep r) <-> In x (claimed_task_deps config)).

(** C3, as amended: for a well-typed record with [bin] and [img], the
    image rule is the last rule [addDep] appends; its file dependencies
    are, in order, [base-img], the expanded [files], [guest-init], the
    [runSpec] path and [cfg-file], each when present; its task
    dependencies are [base-img] when present, then [bin] when [guest-init]
    is present. *)
Theorem addDep_image_rule (fs : filesys) (config : config) (b : string) (img : value)
    (ws : list rule)
    (Hbin : config !! "bin" = Some (VStr b))
    (Himg : config !! "img" = Some img)
    (Ht : typed_fields config = true) :
  exists pre r,
    addDep fs config ws = (Ok tt, pre ++ [r]) /\
    name r = img /\ targets r = [img] /\
    actions r = [ActMakeImage config] /\ uptodate r = None /\
    file_dep r =
      opt_list (config !! "base-img") ++ files_deps fs config
        ++ opt_list (config !! "guest-init") ++ runSpec_dep config
        ++ opt_list (config !! "cfg-file") /\
    task_dep r =
      opt_list (config !! "base-img")
        ++ (if has_key "guest-init" config then [VStr b] else []).
Proof.
  eexists _, _. split; [apply (addDep_Ok fs config b img ws Hbin Himg Ht) |].
  simpl. unfold image_task_deps. rewrite Hbin. repeat split; reflexivity.
Qed.

(** A layered image with an init script: [base-img] is a file dependency
    too, and [bin] a task dependency. *)
Definition layered_cfg : config :=
  <["guest-init" := VStr "/w/init.sh"]>
    (<["base-img" := VStr "base.img"]>
       (<["img" := VStr "test.img"]> (<["bin" := VStr "test-bin"]> ∅))).

Lemma addDep_image_rule_witness :
  exists pre r,
    addDep no_files layered_cfg [] = (Ok tt, pre ++ [r]) /\
    file_dep r = [VStr "base.img"; VStr "/w/init.sh"] /\
    task_dep r = [VStr "base.img"; VStr "test-bin"].
Proof.
  destruct (addDep_image_rule no_files layered_cfg "test-bin" (VStr "test.img") []
              eq_refl eq_refl eq_refl)
    as (pre & r & H & _ & _ & _ & _ & Hf & Htd).
  exists pre, r. split; [exact H |]. split; [exact Hf | exact Htd].
Defined.

Lemma image_rule_as_claimed_fails :
  ~ image_rule_as_claimed no_files layered_cfg.
Proof.
  intros H.
  destruct (H (VStr "test.img") []
              [bin_rule layered_cfg (VStr "test-bin");
               image_rule layered_cfg (VStr "test.img")
                 [VStr "base.img"; VStr "/w/init.sh"]
                 [VStr "base.img"; VStr "test-bin"]]
              (image_rule layered_cfg (VStr "test.img")
                 [VStr "base.img"; VStr "/w/init.sh"]
                 [VStr "base.img"; VStr "test-bin"]))
    as [Hf _]; try reflexivity.
  destruct (proj1 (Hf (VStr "base.img"))) as [E|[]].
  - left. reflexivity.
  - discriminate E.
Qed.

(** *** The expansion of [files] entries *)

Lemma walk_deps_In (fs : filesys) (top p : string) :
  In p (walk_deps fs top) <->
  exists root dirs files f,
    In (root, dirs, files) (walk fs top) /\ In f files /\
    p = Path.join root f /\ islink fs p = false.
Proof.
  unfold walk_deps. rewrite in_flat_map. split.
  - intros [[[root dirs] files] [Hw Hin]].
    apply in_flat_map in Hin as [f [Hf Hp]].
    destruct (islink fs (Path.join root f)) eqn:Hl; simpl in Hp.
    + destruct Hp.
    + destruct Hp as [<-|[]]. exists root, dirs, files, f. auto.
  - intros (root & dirs & files & f & Hw & Hf & -> & Hl).
    exists (root, dirs, files). split; [exact Hw |].
    apply in_flat_map. exists f. split; [exact Hf |].
    rewrite Hl. left. reflexivity.
Qed.

Lemma spec_deps_In (fs : filesys) (fSpec : FileSpec) (p : string) :
  In p (spec_deps fs fSpec) <->
  (isdir fs (src fSpec) = true /\ In p (walk_deps fs (src fSpec))) \/
  (isdir fs (src fSpec) = false /\ p = src fSpec /\ islink fs p = false).
Proof.
  unfold spec_deps.
  destruct (isdir fs (src fSpec)) eqn:Hd.
  - split; [intros H; left; auto | intros [[_ H]|[H _]]; [exact H | discriminate H]].
  - destruct (islink fs (src fSpec)) eqn:Hl; simpl; split.
    + intros [].
    + intros [[H _]|(_ & -> & H)]; [discriminate H | congruence].
    + intros [<-|[]]. right. auto.
    + intros [[H _]|(_ & -> & _)]; [discriminate H | left; reflexivity].
Qed.

Lemma spec_deps_no_link (fs : filesys) (fSpec : FileSpec) (p : string) :
  In p (spec_deps fs fSpec) -> islink fs p = false.
Proof.
  intros H. apply spec_deps_In in H as [[_ H]|(_ & _ & H)]; [| exact H].
  apply walk_deps_In in H as (? & ? & ? & ? & _ & _ & _ & H). exact H.
Qed.

Lemma files_deps_In (fs : filesys) (config : config) (l : list FileSpec) (p : string) :
  config !! "files" = Some (VFiles l) ->
  In (VStr p) (files_deps fs config) <-> exists f, In f l /\ In p (spec_deps fs f).
Proof.
  intros Hf. unfold files_deps. rewrite Hf, in_map_iff. split.
  - intros (q & E & Hq). inversion E; subst q.
    apply in_flat_map in Hq. exact Hq.
  - intros H. exists p. split; [reflexivity |]. apply in_flat_map. exact H.
Qed.

(** The file dependencies that do not come from [files]. *)
Definition other_file_deps (config : config) : list value :=
  opt_list (config !! "base-img") ++ opt_list (config !! "guest-init")
    ++ runSpec_dep config ++ opt_list (config !! "cfg-file").

Lemma image_file_deps_In (fs : filesys) (config : config) (x : value) :
  In x (image_file_deps fs config) <->
  In x (files_deps fs config) \/ In x (other_file_deps config).
Proof.
  unfold image_file_deps, other_file_deps. rewrite !in_app_iff. tauto.
Qed.

(** C5: for an entry [f] of the [files] list of a record that gets an
    image rule [r]: when [f.src] is a directory, every file that [os.walk]
    lists under it and that is not a symlink is a file dependency of [r];
    when it is not a directory, [f.src] itself is one if it is not a
    symlink; and the entry contributes nothing else, so that a symlink is a
    file dependency only if one of the other fields names it. *)
Theorem files_entry_deps (fs : filesys) (config : config) (b : string) (img : value)
    (l : list FileSpec) (f : FileSpec) (ws : list rule)
    (Hbin : config !! "bin" = Some (VStr b))
    (Himg : config !! "img" = Some img)
    (Hfiles : config !! "files" = Some (VFiles l))
    (Ht : typed_fields config = true)
    (Hf : In f l) :
  exists pre r,
    addDep fs config ws = (Ok tt, pre ++ [r]) /\ name r = img /\
    (isdir fs (src f) = true ->
     forall root dirs files nm,
       In (root, dirs, files) (walk fs (src f)) -> In nm files ->
       islink fs (Path.join root nm) = false ->
       In (VStr (Path.join root nm)) (file_dep r)) /\
    (isdir fs (src f) = false ->
     islink fs (src f) = false -> In (VStr (src f)) (file_dep r)) /\
    (forall p, In p (spec_deps fs f) ->
       In (VStr p) (file_dep r) /\ islink fs p = false /\
       if isdir fs (src f)
       then exists root dirs files nm,
              In (root, dirs, files) (walk fs (src f)) /\ In nm files /\
              p = Path.join root nm
       else p = src f) /\
    (forall p, In (VStr p) (file_dep r) -> islink fs p = true ->
       In (VStr p) (other_file_deps config)).
Proof.
  eexists _, _. split; [apply (addDep_Ok fs config b img ws Hbin Himg Ht) |].
  simpl. split; [reflexivity |].
  assert (Hin : forall p, In p (spec_deps fs f) -> In (VStr p) (image_file_deps fs config)).
  { intros p Hp. apply image_file_deps_In. left.
    apply (files_deps_In fs config l p Hfiles). eauto. }
  repeat split.
  - intros Hd root dirs files nm Hw Hnm Hl. apply Hin, spec_deps_In. left.
    split; [exact Hd |]. apply walk_deps_In. exists root, dirs, files, nm. auto.
  - intros Hd Hl. apply Hin, spec_deps_In. right. auto.
  - now apply Hin.
  - now apply spec_deps_no_link in H.
  - apply spec_deps_In in H as [[Hd H]|(Hd & -> & _)]; rewrite Hd; [| reflexivity].
    apply walk_deps_In in H as (root & dirs & files & nm & Hw & Hnm & -> & _).
    exists root, dirs, files, nm. auto.
  - intros p Hp Hl. apply image_file_deps_In in Hp as [Hp|Hp]; [| exact Hp].
    apply (files_deps_In fs config l p Hfiles) in Hp as (g & _ & Hg).
    apply spec_deps_no_link in Hg. congruence.
Qed.

(** A directory [/w/overlay] with a regular file [motd], a symlink [latest]
    and a subdirectory [etc] holding [hosts]; [/w/link.txt] is a symlink. *)
Definition small_tree : filesys :=
  mkFilesys
    (fun p => if decide (p = "/w/overlay") then true else false)
    (fun p => if decide (p = "/w/overlay/latest") then true
              else if decide (p = "/w/link.txt") then true else false)
    (fun p => if decide (p = "/w/overlay")
              then [("/w/overlay", ["etc"], ["motd"; "latest"]);
                    ("/w/overlay/etc", [], ["hosts"])]
              else []).

Definition overlay_cfg : config :=
  <["files" := VFiles [mkFileSpec "/w/overlay" "/"; mkFileSpec "/w/link.txt" "/root/"]]>
    (<["img" := VStr "test.img"]> (<["bin" := VStr "test-bin"]> ∅)).

Lemma files_entry_deps_witness :
  exists pre r,
    addDep small_tree overlay_cfg [] = (Ok tt, pre ++ [r]) /\
    In (VStr "/w/overlay/etc/hosts") (file_dep r) /\
    ~ In (VStr "/w/overlay/latest") (file_dep r).
Proof.
  destruct (files_entry_deps small_tree overlay_cfg "test-bin" (VStr "test.img")
              [mkFileSpec "/w/overlay" "/"; mkFileSpec "/w/link.txt" "/root/"]
              (mkFileSpec "/w/overlay" "/") []
              eq_refl eq_refl eq_refl eq_refl (or_introl eq_refl))
    as (pre & r & H & _ & Hdir & _ & _ & Hlink).
  exists pre, r. split; [exact H |]. split.
  - apply (Hdir eq_refl "/w/overlay/etc" [] ["hosts"] "hosts").
    + right. left. reflexivity.
    + left. reflexivity.
    + reflexivity.
  - intros Hin. destruct (Hlink "/w/overlay/latest" Hin eq_refl).
Defined.

Example overlay_cfg_file_deps :
  map file_dep (snd (addDep small_tree overlay_cfg [])) =
  [[]; [VStr "/w/overlay/motd"; VStr "/w/overlay/etc/hosts"]].
Proof. vm_compute. reflexivity. Qed.

(** ** The [--initramfs] option and the jobs *)

Definition set_initramfs (j : config) : config := <["initramfs" := VBool true]> j.

Lemma main_initramfs_jobs (command : option string) (targetCfg cfg' : config) :
  command = Some "build" \/ command = Some "launch" ->
  main_initramfs command true targetCfg = Ok cfg' ->
  is_Some (cfg' !! "initramfs") /\
  jobs_of cfg' = map set_initramfs (jobs_of targetCfg).
Proof.
  intros Hc. unfold main_initramfs, jobs_of.
  destruct (decide _) as [_|n]; [| contradiction].
  rewrite lookup_insert_ne by discriminate.
  destruct (targetCfg !! "jobs") as [v|] eqn:Hj.
  - destruct v; simpl; intros H; try discriminate H.
    inversion H; subst cfg'; clear H.
    rewrite lookup_insert_eq, lookup_insert_ne, lookup_insert_eq by discriminate.
    split; [eauto |]. rewrite !map_map. reflexivity.
  - intros H. inversion H; subst cfg'; clear H.
    rewrite lookup_insert_eq, lookup_insert_ne, Hj by discriminate.
    split; [eauto | reflexivity].
Qed.

Lemma main_initramfs_total (command : option string) (targetCfg j0 : config) :
  In j0 (jobs_of targetCfg) ->
  exists cfg', main_initramfs command true targetCfg = Ok cfg'.
Proof.
  unfold jobs_of, main_initramfs. intros Hj.
  destruct (decide _); [| eauto].
  rewrite lookup_insert_ne by discriminate.
  destruct (targetCfg !! "jobs") as [[]|]; try destruct Hj. simpl. eauto.
Qed.

Lemma addDep_img_extends (fs : filesys) (config : config) (ws : list rule) :
  exists r rest, addDep_img fs config ws = (r, ws ++ rest).
Proof.
  unfold addDep_img. destruct (config !! "img") as [img|].
  - unfold bind, lift. destruct (image_deps fs config) as [d|e].
    + eexists _, [_]. reflexivity.
    + exists (Err e), []. now rewrite app_nil_r.
  - exists (Ok tt), []. unfold ret. now rewrite app_nil_r.
Qed.

(** The second half of C6, word for word: every job that carries the
    pushed-down flag gets a rule with target [bin] and one with target
    [bin + "-initramfs"]. *)
Definition job_gets_both_rules (fs : filesys) (j : config) (b : string)
    (ws : list rule) : Prop :=
  is_Some (j !! "initramfs") ->
  j !! "bin" = Some (VStr b) ->
  (exists x, In x (snd (addDep fs j ws)) /\ targets x = [VStr b]) /\
  (exists y, In y (snd (addDep fs j ws)) /\ targets y = [VStr (b +:+ "-initramfs")]).

(** C6, as amended: when [build] or [launch] is given [--initramfs],
    [main] sets the flag on the target record and on every one of its job
    records before any rule is emitted; for each such job that has an [img]
    field (and a [bin] path), [addDep] then appends the plain binary rule
    with target [bin], followed by the initramfs rule with target
    [bin + "-initramfs"]. *)
Theorem initramfs_pushed_to_jobs (fs : filesys) (command : option string)
    (targetCfg j0 : config) (b : string) (img : value) (ws : list rule)
    (Hc : command = Some "build" \/ command = Some "launch")
    (Hj : In j0 (jobs_of targetCfg))
    (Hbin : j0 !! "bin" = Some (VStr b))
    (Himg : j0 !! "img" = Some img) :
  exists cfg',
    main_initramfs command true targetCfg = Ok cfg' /\
    is_Some (cfg' !! "initramfs") /\
    jobs_of cfg' = map set_initramfs (jobs_of targetCfg) /\
    (forall j, In j (jobs_of cfg') -> is_Some (j !! "initramfs")) /\
    let j := set_initramfs j0 in
    In j (jobs_of cfg') /\
    exists r rest,
      addDep fs j ws =
        (r, ws ++ bin_rule j (VStr b) :: initramfs_rule j b img :: rest) /\
      targets (bin_rule j (VStr b)) = [VStr b] /\
      targets (initramfs_rule j b img) = [VStr (b +:+ "-initramfs")].
Proof.
  destruct (main_initramfs_total command targetCfg j0 Hj) as [cfg' Hm].
  destruct (main_initramfs_jobs command targetCfg cfg' Hc Hm) as [Hi Hjobs].
  exists cfg'. split; [exact Hm |]. split; [exact Hi |]. split; [exact Hjobs |].
  split.
  { intros j Hin. rewrite Hjobs in Hin. apply in_map_iff in Hin as (j1 & <- & _).
    unfold set_initramfs. rewrite lookup_insert_eq. eauto. }
  cbv zeta. split.
  { rewrite Hjobs. apply in_map. exact Hj. }
  set (j := set_initramfs j0).
  assert (Hb' : j !! "bin" = Some (VStr b)).
  { unfold j, set_initramfs. now rewrite lookup_insert_ne by discriminate. }
  assert (Hi' : j !! "img" = Some img).
  { unfold j, set_initramfs. now rewrite lookup_insert_ne by discriminate. }
  assert (Hf' : is_Some (j !! "initramfs")).
  { unfold j, set_initramfs. rewrite lookup_insert_eq. eauto. }
  unfold addDep.
  rewrite (bind_Ok _ _ _ _ _ (addDep_bin_Ok j _ ws Hb')).
  rewrite (bind_Ok _ _ _ _ _ (addDep_initramfs_Ok j b img _ Hf' Hb' Hi')).
  destruct (addDep_img_extends fs j ((ws ++ [bin_rule j (VStr b)]) ++ [initramfs_rule j b img]))
    as (r & rest & Hr).
  exists r, rest. rewrite Hr, <- !app_assoc. simpl. auto.
Qed.

(** A workload with a disk-based job [j0] and a bare-metal job [j1]. *)
Definition disk_job : config :=
  <["img" := VStr "w-j0.img"]> (<["bin" := VStr "w-j0-bin"]> ∅).

Definition bare_job : config := <["bin" := VStr "w-j1-bin"]> ∅.

Definition workload_cfg : config :=
  <["jobs" := VJobs [("w-j0", disk_job); ("w-j1", bare_job)]]>
    (<["img" := VStr "w.img"]> (<["bin" := VStr "w-bin"]> ∅)).

Lemma initramfs_pushed_to_jobs_witness :
  exists r rest,
    addDep no_files (set_initramfs disk_job) [] =
      (r, bin_rule (set_initramfs disk_job) (VStr "w-j0-bin")
            :: initramfs_rule (set_initramfs disk_job) "w-j0-bin" (VStr "w-j0.img")
            :: rest) /\
    targets (initramfs_rule (set_initramfs disk_job) "w-j0-bin" (VStr "w-j0.img")) =
      [VStr "w-j0-bin-initramfs"].
Proof.
  destruct (initramfs_pushed_to_jobs no_files (Some "build") workload_cfg disk_job
              "w-j0-bin" (VStr "w-j0.img") []
              (or_introl eq_refl) (or_introl eq_refl) eq_refl eq_refl)
    as (cfg' & _ & _ & _ & _ & _ & r & rest & H & _ & Ht).
  exists r, rest. split; [exact H | exact Ht].
Defined.

(** The bare-metal job of the same workload gets the flag too, and
    [addDep] then stops with a [KeyError] before the initramfs rule. *)
Lemma job_without_img_gets_no_initramfs_rule :
  main_initramfs (Some "build") true workload_cfg =
    Ok (<["jobs" := VJobs [("w-j0", set_initramfs disk_job);
                           ("w-j1", set_initramfs bare_job)]]>
          (set_initramfs workload_cfg)) /\
  addDep no_files (set_initramfs bare_job) [] =
    (Err (KeyError "img"), [bin_rule (set_initramfs bare_job) (VStr "w-j1-bin")]) /\
  ~ job_gets_both_rules no_files (set_initramfs bare_job) "w-j1-bin" [].
Proof.
  split; [reflexivity |]. split; [reflexivity |].
  intros H. destruct H as [_ (y & Hy & Ht)].
  - exists (VBool true). reflexivity.
  - reflexivity.
  - destruct Hy as [<-|[]]. discriminate Ht.
Qed.

(** ** The mount transaction *)

Section MountTransaction.
Variable W : world.

Lemma do_Ok (c : call) (t : trace) :
  call_fails W t c = None -> do W c t = (Ok (call_returns W t c), c :: t).
Proof. intros H. unfold do. now rewrite H. Qed.

Lemma do_Err (c : call) (t : trace) (e : exn) :
  call_fails W t c = Some e -> do W c t = (Err e, c :: t).
Proof. intros H. unfold do. now rewrite H. Qed.

Lemma do_inv_Ok (c : call) (t t' : trace) (x : string) :
  do W c t = (Ok x, t') ->
  t' = c :: t /\ x = call_returns W t c /\ call_fails W t c = None.
Proof.
  unfold do. destruct (call_fails W t c); intros H; inversion H. auto.
Qed.

(** Every call of the loop is recorded on top of what was there. *)
Lemma copy_one_extends (direction : string) (f : FileSpec) (t : trace) :
  exists body, snd (copy_one W direction f t) = body ++ t.
Proof.
  unfold copy_one, bind, do, raise, ret.
  repeat destruct (decide _);
    try destruct (call_fails W t _); simpl;
    first [ now eexists [_] | now exists [] ].
Qed.

Lemma for_each_extends (direction : string) (files : list FileSpec) (t : trace) :
  exists body, snd (for_each files (copy_one W direction) t) = body ++ t.
Proof.
  revert t. induction files as [|f rest IH]; intros t; simpl.
  - now exists [].
  - unfold bind.
    destruct (copy_one_extends direction f t) as [b1 H1].
    destruct (copy_one W direction f t) as [[u|e] t1]; simpl in H1; subst t1.
    + destruct (IH (b1 ++ t)) as [b2 H2]. exists (b2 ++ b1).
      now rewrite H2, app_assoc.
    + now exists b1.
Qed.

(** What a successful [mount_image] did: an optional [mkdir], then the
    [mount], which did not fail. *)
Lemma mount_image_inv (img : string) (t0 t1 : trace) :
  mount_image W img t0 = (Ok tt, t1) ->
  exists mk,
    t1 = mount_cmd W img :: mk ++ t0 /\
    (mk = [] \/ mk = [Run ["mkdir"; mnt W] None]) /\
    call_fails W (mk ++ t0) (mount_cmd W img) = None.
Proof.
  unfold mount_image, bind, exists_, when, ret. simpl.
  destruct (path_exists W t0 (mnt W)); simpl.
  - unfold do. destruct (call_fails W t0 (mount_cmd W img)) eqn:E; intros H; inversion H.
    exists []. auto.
  - unfold do at 1. destruct (call_fails W t0 (Run ["mkdir"; mnt W] None)); simpl;
      [intros H; discriminate H |].
    unfold do. destruct (call_fails W _ (mount_cmd W img)) eqn:E; intros H; inversion H.
    exists [Run ["mkdir"; mnt W] None]. auto.
Qed.

Lemma copyImgFiles_mounted (img : string) (files : list FileSpec) (direction : string)
    (t0 t1 : trace) :
  mount_image W img t0 = (Ok tt, t1) ->
  copyImgFiles W img files direction t0 =
    (match call_fails W (snd (for_each files (copy_one W direction) t1)) (umount_cmd W) with
     | Some e => Err e
     | None => fst (for_each files (copy_one W direction) t1)
     end,
     umount_cmd W :: snd (for_each files (copy_one W direction) t1)).
Proof.
  intros Hm. unfold copyImgFiles.
  rewrite (bind_Ok _ _ _ _ _ Hm). unfold try_finally, bind, do, ret.
  destruct (for_each files (copy_one W direction) t1) as [rb tb]. simpl.
  destruct (call_fails W tb (umount_cmd W)); reflexivity.
Qed.

(** C2: once the image is mounted, [copyImgFiles] ends with the
    [umount] call on every exit path.  Whatever the loop did ([body]) and
    however it ended ([rb]: normal return or the error of a copy step),
    the [umount] is the next and last call; the loop's outcome is then
    what the caller gets, unless the [umount] itself raises. *)
Theorem copyImgFiles_always_unmounts (img : string) (files : list FileSpec)
    (direction : string) (t0 t1 : trace)
    (Hm : mount_image W img t0 = (Ok tt, t1)) :
  exists rb body,
    for_each files (copy_one W direction) t1 = (rb, body ++ t1) /\
    snd (copyImgFiles W img files direction t0) = umount_cmd W :: body ++ t1 /\
    fst (copyImgFiles W img files direction t0) =
      match call_fails W (body ++ t1) (umount_cmd W) with
      | Some e => Err e
      | None => rb
      end.
Proof.
  rewrite (copyImgFiles_mounted img files direction t0 t1 Hm).
  destruct (for_each_extends direction files t1) as [body Hb].
  destruct (for_each files (copy_one W direction) t1) as [rb tb]. simpl in *. subst tb.
  exists rb, body. auto.
Qed.

(** C8, as amended: with a direction other than ['in'] and ['out'] and
    a file to copy, a mounted [copyImgFiles] makes no call but the
    [umount]: no file is copied, and the [umount] is run.  The call fails:
    with the [ValueError] when the [umount] succeeds, with the error of the
    [umount] otherwise. *)
Theorem copyImgFiles_bad_direction (img : string) (f : FileSpec) (rest : list FileSpec)
    (direction : string) (t0 t1 : trace)
    (Hin : direction <> "in") (Hout : direction <> "out")
    (Hm : mount_image W img t0 = (Ok tt, t1)) :
  copyImgFiles W img (f :: rest) direction t0 =
    (match call_fails W t1 (umount_cmd W) with
     | Some e => Err e
     | None => Err (ValueError "direction option must be either 'in' or 'out'")
     end,
     umount_cmd W :: t1).
Proof.
  rewrite (copyImgFiles_mounted img (f :: rest) direction t0 t1 Hm).
  simpl. unfold bind, copy_one, raise.
  destruct (decide (direction = "in")); [contradiction |].
  destruct (decide (direction = "out")); [contradiction |].
  reflexivity.
Qed.

End MountTransaction.

(** A world in which every [rsync] fails and everything else succeeds. *)
Definition rsync_fails_world : world :=
  mkWorld "/mnt" "-j4" 1000 (fun _ => "[...]")
    (fun _ _ => true)
    (fun _ c => match c with RunShell _ _ => Some CalledProcessError | _ => None end)
    (fun _ _ => "").

Lemma copyImgFiles_always_unmounts_witness :
  copyImgFiles rsync_fails_world "test.img" [mkFileSpec "/host/etc/motd" "/etc/motd"] "in" [] =
    (Err CalledProcessError,
     [Run ["sudo"; "umount"; "/mnt"] None;
      RunShell "sudo rsync -a --chown=root:root /host/etc/motd /mnt/etc/motd" None;
      Run ["sudo"; "mount"; "-o"; "loop"; "test.img"; "/mnt"] None]).
Proof.
  destruct (copyImgFiles_always_unmounts rsync_fails_world "test.img"
              [mkFileSpec "/host/etc/motd" "/etc/motd"] "in" []
              [Run ["sudo"; "mount"; "-o"; "loop"; "test.img"; "/mnt"] None] eq_refl)
    as (rb & body & Hloop & Ht & Hr).
  vm_compute in Hloop. inversion Hloop; subst rb.
  apply app_inv_tail with (l := [_]) (l1 := [_]) in H1. subst body.
  destruct (copyImgFiles _ _ _ _ _) as [r t]. simpl in Ht, Hr. now subst r t.
Defined.

Lemma copyImgFiles_bad_direction_witness :
  copyImgFiles calm_world "test.img" [mkFileSpec "/host/etc/motd" "/etc/motd"] "sideways" [] =
    (Err (ValueError "direction option must be either 'in' or 'out'"),
     [Run ["sudo"; "umount"; "/mnt"] None;
      Run ["sudo"; "mount"; "-o"; "loop"; "test.img"; "/mnt"] None]).
Proof.
  apply (copyImgFiles_bad_direction calm_world "test.img"
           (mkFileSpec "/host/etc/motd" "/etc/motd") [] "sideways" []
           [Run ["sudo"; "mount"; "-o"; "loop"; "test.img"; "/mnt"] None]);
    [discriminate | discriminate | reflexivity].
Defined.

(** A world in which the [mount] fails, and one in which the [umount]
    fails; everything else succeeds. *)
Definition mount_fails_world : world :=
  mkWorld "/mnt" "-j4" 1000 (fun _ => "[...]")
    (fun _ _ => true)
    (fun _ c => match c with
                | Run ["sudo"; "mount"; _; _; _; _] _ => Some CalledProcessError
                | _ => None
                end)
    (fun _ _ => "").

Definition umount_fails_world : world :=
  mkWorld "/mnt" "-j4" 1000 (fun _ => "[...]")
    (fun _ _ => true)
    (fun _ c => match c with
                | Run ["sudo"; "umount"; _] _ => Some CalledProcessError
                | _ => None
                end)
    (fun _ _ => "").

(** C8 as stated fails: on an empty file list nothing checks the
    direction and the call returns normally; a failing [mount] is raised
    before the direction is looked at; and a failing [umount] replaces the
    [ValueError]. *)
Lemma copyImgFiles_bad_direction_no_ValueError :
  copyImgFiles calm_world "test.img" [] "sideways" [] =
    (Ok tt,
     [Run ["sudo"; "umount"; "/mnt"] None;
      Run ["sudo"; "mount"; "-o"; "loop"; "test.img"; "/mnt"] None]) /\
  copyImgFiles mount_fails_world "test.img"
      [mkFileSpec "/host/etc/motd" "/etc/motd"] "sideways" [] =
    (Err CalledProcessError,
     [Run ["sudo"; "mount"; "-o"; "loop"; "test.img"; "/mnt"] None]) /\
  copyImgFiles umount_fails_world "test.img"
      [mkFileSpec "/host/etc/motd" "/etc/motd"] "sideways" [] =
    (Err CalledProcessError,
     [Run ["sudo"; "umount"; "/mnt"] None;
      Run ["sudo"; "mount"; "-o"; "loop"; "test.img"; "/mnt"] None]) /\
  ~ (forall W img files direction t,
       direction <> "in" -> direction <> "out" ->
       exists msg t', copyImgFiles W img files direction t = (Err (ValueError msg), t')).
Proof.
  split; [reflexivity |]. split; [reflexivity |]. split; [reflexivity |].
  intros H.
  destruct (H calm_world "test.img" [] "sideways" [])
    as (msg & t' & E); [discriminate | discriminate | discriminate E].
Qed.

(** ** Paths inside the mounted image *)

Module PathFacts.
Import Path.

(** String concatenation computes on its first argument. *)
#[local] Arguments String.append !s1 s2 /.

Fixpoint no_slash (s : string) : bool :=
  match s with
  | EmptyString => true
  | String c s' => if decide (c = slash) then false else no_slash s'
  end.

(** A path component that [normpath] keeps as it is. *)
Definition plain (c : string) : bool :=
  no_slash c && bool_decide (c <> "") && bool_decide (c <> ".") && bool_decide (c <> "..").

(** The absolute path with the given components. *)
Definition abs_path (comps : list string) : string := "/" +:+ join_slash comps.

Lemma append_assoc (a b c : string) : (a +:+ b) +:+ c = a +:+ (b +:+ c).
Proof. induction a as [|x a IH]; simpl; [reflexivity | now rewrite IH]. Qed.

Lemma plain_inv (c : string) :
  plain c = true -> no_slash c = true /\ c <> "" /\ c <> "." /\ c <> "..".
Proof.
  unfold plain. rewrite !andb_true_iff, !bool_decide_eq_true. tauto.
Qed.

Lemma split_not_nil (s : string) : split s <> [].
Proof.
  destruct s as [|c s]; simpl; [discriminate |].
  destruct (decide (c = slash)); [discriminate |].
  destruct (split s); discriminate.
Qed.

Lemma split_no_slash (c : string) :
  no_slash c = true -> split c = [c].
Proof.
  induction c as [|x c IH]; simpl; [reflexivity |].
  destruct (decide (x = slash)); [discriminate |].
  intros H. now rewrite (IH H).
Qed.

Lemma split_component (c s : string) :
  no_slash c = true -> split (c +:+ String slash s) = c :: split s.
Proof.
  induction c as [|x c IH]; simpl.
  - intros _. destruct (decide (slash = slash)); [reflexivity | contradiction].
  - destruct (decide (x = slash)); [discriminate |].
    intros H. now rewrite (IH H).
Qed.

Lemma join_slash_cons (c c' : string) (cs : list string) :
  join_slash (c :: c' :: cs) = c +:+ String slash (join_slash (c' :: cs)).
Proof. reflexivity. Qed.

Lemma append_slash (a s b : string) :
  (a +:+ String slash s) +:+ b = a +:+ String slash (s +:+ b).
Proof. induction a as [|x a IH]; simpl; [reflexivity | now rewrite IH]. Qed.

Lemma split_components (cs : list string) (s : string) :
  cs <> [] -> Forall (fun c => no_slash c = true) cs ->
  split (join_slash cs +:+ String slash s) = cs ++ split s.
Proof.
  induction cs as [|c cs IH]; [contradiction |].
  intros _ Hall. inversion Hall as [|? ? Hc Hcs]; subst.
  destruct cs as [|c' cs].
  - now apply split_component.
  - rewrite join_slash_cons, append_slash, (split_component c _ Hc).
    rewrite (IH ltac:(discriminate) Hcs). reflexivity.
Qed.

Lemma split_join_slash (cs : list string) :
  cs <> [] -> Forall (fun c => no_slash c = true) cs ->
  split (join_slash cs) = cs.
Proof.
  induction cs as [|c cs IH]; [contradiction |].
  intros _ Hall. inversion Hall as [|? ? Hc Hcs]; subst.
  destruct cs as [|c' cs].
  - now apply split_no_slash.
  - rewrite join_slash_cons, (split_component c _ Hc). f_equal. now apply IH.
Qed.

Lemma norm_comps_plain (ini : nat) (cs rest acc : list string) :
  Forall (fun c => plain c = true) cs ->
  norm_comps ini (cs ++ rest) acc = norm_comps ini rest (rev cs ++ acc).
Proof.
  revert acc. induction cs as [|c cs IH]; intros acc Hall; [reflexivity |].
  inversion Hall as [|? ? Hc Hcs]; subst.
  apply plain_inv in Hc as (_ & H1 & H2 & H3). simpl.
  destruct (decide (c = "" \/ c = ".")) as [[?|?]|_]; [contradiction | contradiction |].
  destruct (decide (c <> "..")); [| contradiction].
  rewrite (IH _ Hcs), <- app_assoc. reflexivity.
Qed.

Lemma plain_no_slash (cs : list string) :
  Forall (fun c => plain c = true) cs -> Forall (fun c => no_slash c = true) cs.
Proof.
  intros H. eapply Forall_impl; [exact H |].
  intros c Hc. now apply plain_inv in Hc.
Qed.

Lemma initial_slashes_one (b : ascii) (s : string) :
  b <> slash -> initial_slashes (String slash (String b s)) = 1.
Proof.
  intros Hb. destruct s; simpl;
    destruct (decide (slash = slash)); try contradiction;
    destruct (decide (b = slash)); try contradiction; reflexivity.
Qed.

(** [normpath] of an absolute path followed by another one: the
    components of both, in order, under a single leading slash. *)
Lemma normpath_abs_abs (cs1 cs2 : list string) :
  cs1 <> [] ->
  Forall (fun c => plain c = true) cs1 ->
  Forall (fun c => plain c = true) cs2 ->
  normpath (abs_path cs1 +:+ abs_path cs2) = abs_path (cs1 ++ cs2).
Proof.
  intros Hne H1 H2.
  assert (Hshape : abs_path cs1 +:+ abs_path cs2
                   = String slash (join_slash cs1 +:+ String slash (join_slash cs2)))
    by reflexivity.
  assert (Hini : initial_slashes (abs_path cs1 +:+ abs_path cs2) = 1).
  { rewrite Hshape. destruct cs1 as [|c cs1]; [contradiction |].
    inversion H1 as [|? ? Hc _]; subst.
    apply plain_inv in Hc as (Hs & Hc & _).
    destruct c as [|x c]; [contradiction |].
    simpl in Hs. destruct (decide (x = slash)) as [|Hx]; [discriminate |].
    destruct cs1; [| rewrite join_slash_cons]; now apply initial_slashes_one. }
  assert (Hsplit : norm_comps 1 (split (abs_path cs1 +:+ abs_path cs2)) [] = cs1 ++ cs2).
  { rewrite Hshape.
    change (split (String slash (join_slash cs1 +:+ String slash (join_slash cs2))))
      with ("" :: split (join_slash cs1 +:+ String slash (join_slash cs2))).
    rewrite (split_components cs1 _ Hne (plain_no_slash _ H1)).
    change (norm_comps 1 ("" :: cs1 ++ split (join_slash cs2)) [])
      with (norm_comps 1 (cs1 ++ split (join_slash cs2)) []).
    rewrite (norm_comps_plain 1 cs1 _ [] H1).
    destruct cs2 as [|c2 cs2].
    - simpl. now rewrite !app_nil_r, rev_involutive.
    - rewrite (split_join_slash (c2 :: cs2) ltac:(discriminate) (plain_no_slash _ H2)).
      rewrite <- (app_nil_r (c2 :: cs2)) at 1.
      rewrite (norm_comps_plain 1 (c2 :: cs2) [] _ H2).
      change (norm_comps 1 [] ?l) with (rev l).
      rewrite app_nil_r, rev_app_distr, !rev_involutive. reflexivity. }
  unfold normpath. rewrite Hini, Hsplit.
  destruct (decide (abs_path cs1 +:+ abs_path cs2 = "")) as [E|_];
    [rewrite Hshape in E; discriminate E |].
  destruct (decide (slashes 1 +:+ join_slash (cs1 ++ cs2) = "")) as [E|_];
    [discriminate E | reflexivity].
Qed.

Example normpath_collapses : normpath "/mnt//a/./b/../c" = "/mnt/a/c".
Proof. reflexivity. Qed.

(** A destination that climbs out is not kept under the mount point. *)
Example normpath_dotdot : normpath ("/mnt" +:+ "/../etc") = "/etc".
Proof. reflexivity. Qed.

End PathFacts.

(** The claim of C4, word for word: for a destination that begins with
    a separator, the copy target is the destination itself. *)
Definition target_replaces_mount (W : world) (f : FileSpec) : Prop :=
  Path.startswith_slash (dst f) = true -> in_mount W (dst f) = dst f.

(** C4, as amended: the target of an inbound copy is
    [normpath(mnt + f.dst)], plain concatenation.  For a mount point
    [/m1/.../mk] and a destination [/d1/.../dn] that begins with a
    separator, that is [/m1/.../mk/d1/.../dn]: the destination is joined
    onto the mount point and does not replace it. *)
Theorem inbound_target_joins_mount (W : world) (cs1 cs2 : list string)
    (f : FileSpec) (t : trace)
    (Hmnt : mnt W = PathFacts.abs_path cs1)
    (Hne : cs1 <> [])
    (H1 : Forall (fun c => PathFacts.plain c = true) cs1)
    (Hdst : dst f = PathFacts.abs_path cs2)
    (H2 : Forall (fun c => PathFacts.plain c = true) cs2) :
  Path.startswith_slash (dst f) = true /\
  in_mount W (dst f) = PathFacts.abs_path (cs1 ++ cs2) /\
  snd (copy_one W "in" f t) =
    RunShell ("sudo rsync -a --chown=root:root " +:+ src f +:+ " "
              +:+ PathFacts.abs_path (cs1 ++ cs2)) None :: t.
Proof.
  assert (Hin : in_mount W (dst f) = PathFacts.abs_path (cs1 ++ cs2)).
  { unfold in_mount. rewrite Hmnt, Hdst.
    now apply PathFacts.normpath_abs_abs. }
  split; [now rewrite Hdst |]. split; [exact Hin |].
  unfold copy_one, bind, do, rsync_in. rewrite Hin.
  destruct (decide ("in" = "in")) as [_|n]; [| contradiction].
  destruct (call_fails W t _); reflexivity.
Qed.

Lemma inbound_target_joins_mount_witness :
  in_mount calm_world "/etc/motd" = "/mnt/etc/motd" /\
  snd (copy_one calm_world "in" (mkFileSpec "/host/etc/motd" "/etc/motd") []) =
    [RunShell "sudo rsync -a --chown=root:root /host/etc/motd /mnt/etc/motd" None].
Proof.
  destruct (inbound_target_joins_mount calm_world ["mnt"] ["etc"; "motd"]
              (mkFileSpec "/host/etc/motd" "/etc/motd") []
              eq_refl ltac:(discriminate)
              ltac:(repeat constructor) eq_refl ltac:(repeat constructor))
    as (_ & Hin & Hrun).
  split; [exact Hin | exact Hrun].
Defined.

Lemma target_replaces_mount_fails :
  in_mount calm_world "/etc/motd" = "/mnt/etc/motd" /\
  ~ target_replaces_mount calm_world (mkFileSpec "/host/etc/motd" "/etc/motd").
Proof.
  split; [reflexivity |]. intros H. specialize (H eq_refl). discriminate H.
Qed.

(** ** The boot-script overlays of [makeImage] *)

Section BootOverlays.
Variable W : world.

(** The calls of a successful [applyOverlay(img, overlay)], newest
    first; [mk] is the [mkdir] of the mount point, where it was needed. *)
Definition overlay_applied (img overlay : string) (mk : trace) : trace :=
  umount_cmd W :: rsync_in W (overlay_spec overlay) :: mount_cmd W img :: mk.

Definition mkdir_or_not (mk : trace) : Prop :=
  mk = [] \/ mk = [Run ["mkdir"; mnt W] None].

(** The trace after the builder [b] generated the overlay for [script]
    on top of [t], and that overlay was applied to [img]. *)
Definition boot_action_set (b img : string) (script : option string) (mk : trace)
    (t : trace) : trace :=
  overlay_applied img (call_returns W t (GenerateBootScriptOverlay b script)) mk
    ++ GenerateBootScriptOverlay b script :: t.

(** The calls between the clearing overlay and the run overlay: a log
    line, and [genRunScript] when the run spec is a command. *)
Definition run_script_resolved (spec : RunSpec) (script : string) (mid t : trace) : Prop :=
  match command spec with
  | Some c =>
      mid = [GenRunScript c; LogInfo ("Applying run command: " +:+ c)] /\
      script = call_returns W (LogInfo ("Applying run command: " +:+ c) :: t) (GenRunScript c)
  | None =>
      path spec = Some script /\ mid = [LogInfo ("Applying run script: " +:+ script)]
  end.

Lemma say_inv (c : call) (t t' : trace) (u : unit) :
  say c t = (Ok u, t') -> t' = c :: t.
Proof. unfold say. intros H. now inversion H. Qed.

Lemma exists_inv (p : string) (t t' : trace) (e : bool) :
  exists_ W p t = (Ok e, t') -> e = path_exists W t p /\ t' = t.
Proof. unfold exists_. intros H. now inversion H. Qed.

Lemma when_raise_inv (b : bool) (x : exn) (t t' : trace) (u : unit) :
  when b (raise x) t = (Ok u, t') -> b = false /\ t' = t.
Proof.
  destruct b; unfold when, raise, ret; intros H; inversion H. auto.
Qed.

Lemma get_str_inv (config : config) (k s : string) :
  rbind (getitem config k) as_str = Ok s -> config !! k = Some (VStr s).
Proof.
  unfold getitem. destruct (config !! k) as [[]|]; simpl; intros H; inversion H.
  reflexivity.
Qed.

Lemma generateBootScriptOverlay_inv (config : config) (script : option string)
    (t t' : trace) (o : string) :
  generateBootScriptOverlay W config script t = (Ok o, t') ->
  exists b,
    config !! "builder" = Some (VBuilder b) /\
    t' = GenerateBootScriptOverlay b script :: t /\
    o = call_returns W t (GenerateBootScriptOverlay b script).
Proof.
  unfold generateBootScriptOverlay, bind, lift, getitem.
  destruct (config !! "builder") as [[]|]; try (unfold raise; intros H; discriminate H).
  intros H. apply do_inv_Ok in H as (-> & -> & _). eauto.
Qed.

Lemma applyOverlay_inv (img overlay : string) (t t' : trace) (u : unit) :
  applyOverlay W img overlay t = (Ok u, t') ->
  exists mk, t' = overlay_applied img overlay mk ++ t /\ mkdir_or_not mk.
Proof.
  unfold applyOverlay. intros H.
  destruct (mount_image W img t) as [[[]|e] t1] eqn:Hm.
  - rewrite (copyImgFiles_mounted W img _ "in" t t1 Hm) in H.
    destruct (mount_image_inv W img t t1 Hm) as (mk & -> & Hmk & _).
    exists mk. split; [| exact Hmk].
    simpl in H. unfold bind, copy_one in H.
    destruct (decide ("in" = "in")) as [_|n]; [| contradiction].
    unfold bind, do, ret in H.
    destruct (call_fails W _ (rsync_in W (overlay_spec overlay))); simpl in H.
    + destruct (call_fails W _ (umount_cmd W)); discriminate H.
    + destruct (call_fails W _ (umount_cmd W)); inversion H. reflexivity.
  - unfold copyImgFiles in H. rewrite (bind_Err _ _ _ _ _ Hm) in H. discriminate H.
Qed.

Tactic Notation "inv_bind" hyp(H) "as" ident(a) ident(Hm) :=
  let s := fresh "s" in
  apply bind_inv_Ok in H; destruct H as (a & s & Hm & H).

Tactic Notation "inv_bind" hyp(H) "as" ident(a) ident(Hm) "at" ident(s) :=
  apply bind_inv_Ok in H; destruct H as (a & s & Hm & H).

Tactic Notation "inv_lift" hyp(H) "as" ident(E) :=
  apply lift_inv_Ok in H; destruct H as (E & ->).

(** A successful guest-init phase: the init overlay is generated and
    applied, the image is booted, and the clearing overlay is generated
    and applied. *)
Lemma makeImage_init_inv (config : config) (t t' : trace) :
  is_Some (config !! "guest-init") ->
  makeImage_init W config t = (Ok tt, t') ->
  exists b img bin gi cmd mk1 mk2,
    config !! "guest-init" = Some (VStr gi) /\
    config !! "builder" = Some (VBuilder b) /\
    config !! "img" = Some (VStr img) /\
    config !! "bin" = Some (VStr bin) /\
    getQemuCmd config false = Ok cmd /\
    mkdir_or_not mk1 /\ mkdir_or_not mk2 /\
    t' = boot_action_set b img None mk2
           (CheckCall cmd :: Print ("Launching: " +:+ bin)
              :: boot_action_set b img (Some gi) mk1
                   (LogInfo ("Applying init script: " +:+ gi) :: t)).
Proof.
  intros Hgi H. unfold makeImage_init, when in H.
  rewrite (proj2 (has_key_true _ _) Hgi) in H.
  inv_bind H as gi Hm. inv_lift Hm as Egi. apply get_str_inv in Egi.
  inv_bind H as u1 Hm. apply say_inv in Hm; subst.
  inv_bind H as e Hm. apply exists_inv in Hm as (_ & ->).
  inv_bind H as u2 Hm. apply when_raise_inv in Hm as (_ & ->).
  inv_bind H as o1 Hm. apply generateBootScriptOverlay_inv in Hm as (b & Hb & -> & ->).
  inv_bind H as img Hm. inv_lift Hm as Eimg. apply get_str_inv in Eimg.
  inv_bind H as u3 Hm. apply applyOverlay_inv in Hm as (mk1 & -> & Hmk1).
  inv_bind H as bin Hm. inv_lift Hm as Ebin. apply get_str_inv in Ebin.
  inv_bind H as u4 Hm. apply say_inv in Hm; subst.
  inv_bind H as cmd Hm. inv_lift Hm as Ecmd.
  inv_bind H as x5 Hm. apply do_inv_Ok in Hm as (-> & _ & _).
  inv_bind H as o2 Hm. apply generateBootScriptOverlay_inv in Hm as (b' & Hb' & -> & ->).
  inv_bind H as img' Hm. inv_lift Hm as Eimg'. apply get_str_inv in Eimg'.
  apply applyOverlay_inv in H as (mk2 & -> & Hmk2).
  assert (b' = b) by congruence. assert (img' = img) by congruence. subst.
  exists b, img, bin, gi, cmd, mk1, mk2.
  repeat split; try assumption.
Qed.

Lemma makeImage_run_absent (config : config) (t : trace) :
  config !! "runSpec" = None -> makeImage_run W config t = (Ok tt, t).
Proof.
  intros Hn. unfold makeImage_run, when, has_key. rewrite Hn. reflexivity.
Qed.

(** A successful run-script phase: the script is resolved, and its
    overlay is generated and applied. *)
Lemma makeImage_run_inv (config : config) (rs : value) (t t' : trace) :
  config !! "runSpec" = Some rs ->
  makeImage_run W config t = (Ok tt, t') ->
  exists spec b img script mid mk,
    rs = VRunSpec spec /\
    config !! "builder" = Some (VBuilder b) /\
    config !! "img" = Some (VStr img) /\
    run_script_resolved spec script mid t /\
    mkdir_or_not mk /\
    t' = boot_action_set b img (Some script) mk (mid ++ t).
Proof.
  intros Hrs H. unfold makeImage_run, when, has_key in H. rewrite Hrs in H.
  inv_bind H as spec Hm. inv_lift Hm as Espec.
  unfold getitem in Espec. rewrite Hrs in Espec. simpl in Espec.
  destruct rs; try discriminate Espec. inversion Espec; subst; clear Espec.
  inv_bind H as script Hm at t1.
  assert (Hres : exists mid, run_script_resolved spec script mid t /\ t1 = mid ++ t).
  { unfold run_script_resolved. destruct (command spec) as [c|].
    - inv_bind Hm as u0 Hs. apply say_inv in Hs; subst.
      apply do_inv_Ok in Hm as (-> & -> & _). eexists. split; [split |]; reflexivity.
    - destruct (path spec) as [p|]; [| discriminate Hm].
      inv_bind Hm as u0 Hs. apply say_inv in Hs; subst.
      inversion Hm; subst. eexists. split; [split |]; reflexivity. }
  destruct Hres as (mid & Hres & ->). clear Hm.
  inv_bind H as e Hm. apply exists_inv in Hm as (_ & ->).
  inv_bind H as u2 Hm. apply when_raise_inv in Hm as (_ & ->).
  inv_bind H as o Hm. apply generateBootScriptOverlay_inv in Hm as (b & Hb & -> & ->).
  inv_bind H as img Hm. inv_lift Hm as Eimg. apply get_str_inv in Eimg.
  apply applyOverlay_inv in H as (mk & -> & Hmk).
  exists spec, b, img, script, mid, mk. repeat split; assumption || reflexivity.
Qed.

(** C1: after a successful [makeImage] of a record with [guest-init],
    the calls end as follows.  Without [runSpec]: the overlay generated
    from no script is the last one generated and the last one applied,
    after the init overlay was applied and the image booted.  With
    [runSpec]: the run overlay is generated and applied after that
    clearing overlay, with nothing but the resolution of the run script in
    between, and is the last one applied. *)
Theorem makeImage_boot_overlays (config : config) (t0 t : trace)
    (Hgi : is_Some (config !! "guest-init"))
    (Hok : makeImage W config t0 = (Ok tt, t)) :
  exists b img bin gi cmd mk1 mk2 pre,
    config !! "guest-init" = Some (VStr gi) /\
    mkdir_or_not mk1 /\ mkdir_or_not mk2 /\
    let cleared :=
      boot_action_set b img None mk2
        (CheckCall cmd :: Print ("Launching: " +:+ bin)
           :: boot_action_set b img (Some gi) mk1
                (LogInfo ("Applying init script: " +:+ gi) :: pre)) in
    match config !! "runSpec" with
    | None => t = cleared
    | Some rs =>
        exists spec script mid mk3,
          rs = VRunSpec spec /\
          run_script_resolved spec script mid cleared /\
          mkdir_or_not mk3 /\
          t = boot_action_set b img (Some script) mk3 (mid ++ cleared)
    end.
Proof.
  unfold makeImage in Hok.
  inv_bind Hok as u1 Hbase at t1. inv_bind Hok as u2 Hfiles at pre.
  inv_bind Hok as u3 Hinit at t3. destruct u3.
  apply (makeImage_init_inv config _ _ Hgi) in Hinit
    as (b & img & bin & gi & cmd & mk1 & mk2 & Egi & Hb & Himg & _ & _ & Hmk1 & Hmk2 & ->).
  exists b, img, bin, gi, cmd, mk1, mk2, pre.
  split; [exact Egi |]. split; [exact Hmk1 |]. split; [exact Hmk2 |]. cbv zeta.
  destruct (config !! "runSpec") as [rs|] eqn:Hrs.
  - destruct u1, u2.
    destruct (makeImage_run_inv config rs _ _ Hrs Hok)
      as (spec & b' & img' & script & mid & mk3 & Ers & Hb' & Himg' & Hres & Hmk3 & Ht).
    assert (b' = b) by congruence. assert (img' = img) by congruence. subst.
    exists spec, script, mid, mk3. auto.
  - rewrite (makeImage_run_absent config _ Hrs) in Hok. now inversion Hok.
Qed.

End BootOverlays.

(** An image with an init script, and the same with a run command. *)
Definition init_cfg : config :=
  <["guest-init" := VStr "/w/init.sh"]>
    (<["builder" := VBuilder "br"]>
       (<["img" := VStr "test.img"]> (<["bin" := VStr "test-bin"]> ∅))).

Definition init_run_cfg : config :=
  <["runSpec" := VRunSpec (mkRunSpec (Some "/bin/bench") None)]> init_cfg.

Example makeImage_init_cfg :
  makeImage calm_world init_cfg [] =
  (Ok tt,
   [Run ["sudo"; "umount"; "/mnt"] None;
    RunShell "sudo rsync -a --chown=root:root /overlay/none/* /mnt" None;
    Run ["sudo"; "mount"; "-o"; "loop"; "test.img"; "/mnt"] None;
    GenerateBootScriptOverlay "br" None;
    CheckCall ("qemu-system-riscv64 -nographic -smp 4 -machine virt -m 4G -kernel test-bin -object rng-random,filename=/dev/urandom,id=rng0 -device virtio-rng-device,rng=rng0 -device virtio-net-device,netdev=usernet -netdev user,id=usernet,hostfwd=tcp::10000-:22 -device virtio-blk-device,drive=hd0 -drive file=test.img,format=raw,id=hd0 -append "
      +:+ String dquote ("ro root=/dev/vda" +:+ String dquote ""));
    Print "Launching: test-bin";
    Run ["sudo"; "umount"; "/mnt"] None;
    RunShell "sudo rsync -a --chown=root:root /overlay/w/init.sh/* /mnt" None;
    Run ["sudo"; "mount"; "-o"; "loop"; "test.img"; "/mnt"] None;
    GenerateBootScriptOverlay "br" (Some "/w/init.sh");
    LogInfo "Applying init script: /w/init.sh"]).
Proof. vm_compute. reflexivity. Qed.

Lemma makeImage_boot_overlays_witness :
  (exists b img bin gi cmd mk1 mk2 pre,
     snd (makeImage calm_world init_cfg []) =
       boot_action_set calm_world b img None mk2
         (CheckCall cmd :: Print ("Launching: " +:+ bin)
            :: boot_action_set calm_world b img (Some gi) mk1
                 (LogInfo ("Applying init script: " +:+ gi) :: pre))) /\
  (exists b img bin gi cmd mk1 mk2 pre script mid mk3,
     snd (makeImage calm_world init_run_cfg []) =
       boot_action_set calm_world b img (Some script) mk3
         (mid ++
          boot_action_set calm_world b img None mk2
            (CheckCall cmd :: Print ("Launching: " +:+ bin)
               :: boot_action_set calm_world b img (Some gi) mk1
                    (LogInfo ("Applying init script: " +:+ gi) :: pre)))).
Proof.
  split.
  - destruct (makeImage_boot_overlays calm_world init_cfg []
                (snd (makeImage calm_world init_cfg []))
                (ex_intro _ (VStr "/w/init.sh") eq_refl) eq_refl)
      as (b & img & bin & gi & cmd & mk1 & mk2 & pre & _ & _ & _ & H).
    cbv zeta in H. change (init_cfg !! "runSpec") with (@None value) in H.
    exists b, img, bin, gi, cmd, mk1, mk2, pre. exact H.
  - destruct (makeImage_boot_overlays calm_world init_run_cfg []
                (snd (makeImage calm_world init_run_cfg []))
                (ex_intro _ (VStr "/w/init.sh") eq_refl) eq_refl)
      as (b & img & bin & gi & cmd & mk1 & mk2 & pre & _ & _ & _ & H).
    cbv zeta in H.
    change (init_run_cfg !! "runSpec")
      with (Some (VRunSpec (mkRunSpec (Some "/bin/bench") None))) in H.
    destruct H as (spec & script & mid & mk3 & _ & _ & _ & H).
    exists b, img, bin, gi, cmd, mk1, mk2, pre, script, mid, mk3. exact H.
Defined.

(** * Further properties *)

(** ** [addDep] only appends *)

(** A computation on [loader.workloads] that leaves the rules it finds
    in place and appends rules that do not depend on them. *)
Definition appends (m : M (list rule) unit) : Prop :=
  forall ws, m ws = (fst (m []), ws ++ snd (m [])).

Lemma appends_ret : appends (ret tt).
Proof. intros ws. unfold ret. simpl. now rewrite app_nil_r. Qed.

Lemma appends_append_rule (r : rule) : appends (append_rule r).
Proof. intros ws. reflexivity. Qed.

Lemma appends_lift {A} (x : result A) (k : A -> M (list rule) unit) :
  (forall a, appends (k a)) -> appends (bind (lift x) k).
Proof.
  intros Hk ws. unfold bind, lift. destruct x as [a|e].
  - apply Hk.
  - simpl. now rewrite app_nil_r.
Qed.

Lemma appends_seq (m k : M (list rule) unit) :
  appends m -> appends k -> appends (bind m (fun _ => k)).
Proof.
  intros Hm Hk ws. unfold bind. rewrite (Hm ws).
  destruct (m []) as [[u|e] a]; simpl.
  - rewrite (Hk (ws ++ a)), (Hk a). simpl. now rewrite app_assoc.
  - reflexivity.
Qed.

Lemma appends_addDep_bin (config : config) : appends (addDep_bin config).
Proof.
  unfold addDep_bin. apply appends_lift. intros nm.
  apply appends_lift. intros tg. apply appends_append_rule.
Qed.

Lemma appends_addDep_initramfs (config : config) : appends (addDep_initramfs config).
Proof.
  unfold addDep_initramfs. destruct (has_key "initramfs" config); [| apply appends_ret].
  repeat (apply appends_lift; intros ?). apply appends_append_rule.
Qed.

Lemma appends_addDep_img (fs : filesys) (config : config) : appends (addDep_img fs config).
Proof.
  unfold addDep_img. destruct (config !! "img"); [| apply appends_ret].
  apply appends_lift. intros ?. apply appends_append_rule.
Qed.

(** X1: [addDep] never changes or removes the rules the loader already
    holds: it appends, and both its outcome and what it appends are the
    same whatever the loader held. *)
Theorem addDep_appends (fs : filesys) (config : config) (ws : list rule) :
  addDep fs config ws = (fst (addDep fs config []), ws ++ snd (addDep fs config [])).
Proof.
  revert ws. change (appends (addDep fs config)). unfold addDep.
  apply appends_seq; [apply appends_addDep_bin |].
  apply appends_seq; [apply appends_addDep_initramfs | apply appends_addDep_img].
Qed.

(** ** The rules of one record *)

(** [bin] is a path, an [initramfs] flag comes with an [img], and the
    image fields are well typed. *)
Definition well_formed (config : config) (b : string) : Prop :=
  config !! "bin" = Some (VStr b) /\
  (is_Some (config !! "initramfs") -> is_Some (config !! "img")) /\
  typed_fields config = true.

(** The names of the rules of a record: [bin], [bin + "-initramfs"] when
    flagged, [img] when there is one. *)
Definition rule_names (config : config) (b : string) : list value :=
  VStr b
    :: (if has_key "initramfs" config then [VStr (b +:+ "-initramfs")] else [])
    ++ opt_list (config !! "img").

Lemma addDep_img_absent (fs : filesys) (config : config) (ws : list rule) :
  config !! "img" = None -> addDep_img fs config ws = (Ok tt, ws).
Proof. intros H. unfold addDep_img. now rewrite H. Qed.

Lemma addDep_well_formed (fs : filesys) (config : config) (b : string) :
  well_formed config b ->
  addDep fs config [] =
    (Ok tt,
     bin_rule config (VStr b)
       :: match config !! "img" with
          | Some img =>
              (if has_key "initramfs" config then [initramfs_rule config b img] else [])
                ++ [image_rule config img (image_file_deps fs config) (image_task_deps config)]
          | None => []
          end).
Proof.
  intros (Hb & Hi & Ht).
  destruct (config !! "img") as [img|] eqn:Himg.
  - rewrite (addDep_Ok fs config b img [] Hb Himg Ht). unfold bin_rules.
    simpl. reflexivity.
  - assert (Hn : config !! "initramfs" = None).
    { destruct (config !! "initramfs") eqn:E; [| reflexivity].
      destruct Hi as [x Hx]; [eauto | discriminate Hx]. }
    unfold addDep.
    rewrite (bind_Ok _ _ _ _ _ (addDep_bin_Ok config _ [] Hb)).
    rewrite (bind_Ok _ _ _ _ _ (addDep_initramfs_absent config _ Hn)).
    now rewrite (addDep_img_absent fs config _ Himg).
Qed.

Lemma string_length_app (a b : string) :
  String.length (a +:+ b) = String.length a + String.length b.
Proof.
  induction a as [|x a IH]; [reflexivity |].
  change (String x a +:+ b) with (String x (a +:+ b)). simpl. now rewrite IH.
Qed.

Lemma initramfs_name_differs (b : string) : b +:+ "-initramfs" <> b.
Proof.
  intros E. apply (f_equal String.length) in E.
  rewrite string_length_app in E. simpl in E. lia.
Qed.

(** X2: for a well-formed record [addDep] succeeds and emits one rule
    per artifact, in the order [bin], [bin + "-initramfs"] (when flagged),
    [img] (when present); each rule's name is its only target; and the
    names are pairwise distinct as soon as [img] is neither of the two
    binary paths. *)
Theorem addDep_rule_names (fs : filesys) (config : config) (b : string)
    (Hwf : well_formed config b)
    (Himg : forall img, config !! "img" = Some img ->
              img <> VStr b /\ img <> VStr (b +:+ "-initramfs")) :
  fst (addDep fs config []) = Ok tt /\
  map name (snd (addDep fs config [])) = rule_names config b /\
  Forall (fun r => targets r = [name r]) (snd (addDep fs config [])) /\
  NoDup (rule_names config b).
Proof.
  rewrite (addDep_well_formed fs config b Hwf). unfold rule_names.
  destruct Hwf as (Hb & Hi & Ht).
  destruct (config !! "img") as [img|] eqn:Em.
  - destruct (Himg img eq_refl) as [H1 H2].
    destruct (has_key "initramfs" config); simpl;
      (split; [reflexivity |]); (split; [reflexivity |]);
      (split; [repeat constructor |]);
      repeat constructor; rewrite ?list_elem_of_In; simpl; intros H;
      repeat destruct H as [H|H]; try congruence; try contradiction.
    inversion H. now apply initramfs_name_differs in H3.
  - assert (Hn : has_key "initramfs" config = false).
    { destruct (has_key "initramfs" config) eqn:E; [| reflexivity].
      apply has_key_true in E. destruct (Hi E) as [x Hx]. discriminate Hx. }
    rewrite Hn. simpl. repeat split; repeat constructor.
    rewrite list_elem_of_In. simpl. tauto.
Qed.

Definition initramfs_disk_cfg : config :=
  <["initramfs" := VBool true]>
    (<["guest-init" := VStr "/w/init.sh"]>
       (<["base-img" := VStr "base.img"]>
          (<["img" := VStr "test.img"]> (<["bin" := VStr "test-bin"]> ∅)))).

Lemma initramfs_disk_cfg_well_formed : well_formed initramfs_disk_cfg "test-bin".
Proof.
  split; [reflexivity |]. split; [| reflexivity].
  intros _. exists (VStr "test.img"). reflexivity.
Defined.

Lemma addDep_rule_names_witness :
  map name (snd (addDep no_files initramfs_disk_cfg [])) =
    [VStr "test-bin"; VStr "test-bin-initramfs"; VStr "test.img"] /\
  NoDup [VStr "test-bin"; VStr "test-bin-initramfs"; VStr "test.img"].
Proof.
  destruct (addDep_rule_names no_files initramfs_disk_cfg "test-bin"
              initramfs_disk_cfg_well_formed) as (_ & Hn & _ & Hd).
  - intros img E. inversion E. split; discriminate.
  - split; [exact Hn | exact Hd].
Defined.

(** X3: every task dependency of a rule that [addDep] emits for a
    well-formed record is either the record's [base-img] or the name of a
    rule emitted by the same call: the initramfs binary waits for the
    image, and an image with a [guest-init] script waits for the binary
    that boots it. *)
Theorem addDep_task_deps_closed (fs : filesys) (config : config) (b : string)
    (r : rule) (d : value)
    (Hwf : well_formed config b)
    (Hr : In r (snd (addDep fs config [])))
    (Hd : In d (task_dep r)) :
  config !! "base-img" = Some d \/
  exists r', In r' (snd (addDep fs config [])) /\ name r' = d.
Proof.
  pose proof (addDep_well_formed fs config b Hwf) as E.
  destruct Hwf as (Hb & Hi & Ht).
  rewrite E in Hr |- *. simpl in Hr |- *.
  destruct Hr as [<-|Hr]; [destruct Hd |].
  destruct (config !! "img") as [img|] eqn:Em; [| destruct Hr].
  apply in_app_iff in Hr as [Hr|[<-|[]]].
  - destruct (has_key "initramfs" config); [| destruct Hr].
    destruct Hr as [<-|[]]. destruct Hd as [<-|[]].
    right. eexists. split; [right; apply in_app_iff; right; left; reflexivity |].
    reflexivity.
  - simpl in Hd. unfold image_task_deps in Hd. apply in_app_iff in Hd as [Hd|Hd].
    + left. destruct (config !! "base-img") as [x|]; [| destruct Hd].
      destruct Hd as [<-|[]]. reflexivity.
    + destruct (has_key "guest-init" config); [| destruct Hd].
      rewrite Hb in Hd. destruct Hd as [<-|[]].
      right. eexists. split; [left; reflexivity | reflexivity].
Qed.

Lemma addDep_task_deps_closed_witness :
  initramfs_disk_cfg !! "base-img" = Some (VStr "test-bin") \/
  exists r', In r' (snd (addDep no_files initramfs_disk_cfg [])) /\ name r' = VStr "test-bin".
Proof.
  apply (addDep_task_deps_closed no_files initramfs_disk_cfg "test-bin"
           (image_rule initramfs_disk_cfg (VStr "test.img")
              (image_file_deps no_files initramfs_disk_cfg)
              (image_task_deps initramfs_disk_cfg))
           (VStr "test-bin") initramfs_disk_cfg_well_formed).
  - right. right. left. reflexivity.
  - right. left. reflexivity.
Defined.

(** ** [main] touches the [initramfs] flag only *)

Lemma jobs_set_initramfs_idem (v v' : value) :
  jobs_set_initramfs v = Ok v' -> jobs_set_initramfs v' = Ok v'.
Proof.
  destruct v; simpl; intros H; inversion H. simpl. do 2 f_equal.
  rewrite map_map. apply map_ext. intros [n j]. simpl.
  now rewrite insert_insert_eq.
Qed.

(** X4: the option handling of [main] is idempotent, and it changes
    nothing but the [initramfs] flag: every other field of the target
    record is as it was, the jobs keep their names and their order, and
    every other field of every job is as it was. *)
Theorem main_initramfs_frame (command : option string) (initramfs : bool)
    (targetCfg cfg' : config)
    (Hm : main_initramfs command initramfs targetCfg = Ok cfg') :
  main_initramfs command initramfs cfg' = Ok cfg' /\
  (forall k, k <> "initramfs" -> k <> "jobs" -> cfg' !! k = targetCfg !! k) /\
  match targetCfg !! "jobs" with
  | Some (VJobs js) =>
      exists js',
        cfg' !! "jobs" = Some (VJobs js') /\
        map fst js' = map fst js /\
        Forall2 (fun j' j => forall k, k <> "initramfs" -> j' !! k = j !! k)
          (map snd js') (map snd js)
  | other => cfg' !! "jobs" = other
  end.
Proof.
  unfold main_initramfs in *.
  destruct (decide _) as [Hc|Hc].
  2:{ inversion Hm; subst. split; [reflexivity |]. split; [reflexivity |].
      destruct (cfg' !! "jobs") as [[]|]; try reflexivity.
      eexists. split; [reflexivity |]. split; [reflexivity |].
      apply Forall2_same_length_lookup_2; [reflexivity |]. intros; congruence. }
  destruct initramfs.
  2:{ inversion Hm; subst. split; [reflexivity |]. split; [reflexivity |].
      destruct (cfg' !! "jobs") as [[]|]; try reflexivity.
      eexists. split; [reflexivity |]. split; [reflexivity |].
      apply Forall2_same_length_lookup_2; [reflexivity |]. intros; congruence. }
  rewrite lookup_insert_ne in Hm by discriminate.
  destruct (targetCfg !! "jobs") as [v|] eqn:Hj.
  - destruct (jobs_set_initramfs v) as [v'|e] eqn:Hv; simpl in Hm; inversion Hm; subst.
    split; [| split].
    + rewrite lookup_insert_ne, lookup_insert_eq by discriminate.
      rewrite (jobs_set_initramfs_idem v v' Hv). simpl. f_equal.
      apply map_eq. intros k. rewrite !lookup_insert.
      repeat case_decide; congruence.
    + intros k H1 H2. now rewrite !lookup_insert_ne by congruence.
    + destruct v; simpl in Hv; inversion Hv; subst.
      eexists. split; [apply lookup_insert_eq |]. split.
      * rewrite map_map. reflexivity.
      * rewrite map_map. simpl. clear. induction js as [|[n j] js IH]; simpl; constructor.
        -- intros k Hk. now rewrite lookup_insert_ne by congruence.
        -- exact IH.
  - inversion Hm; subst. split; [| split].
    + rewrite !lookup_insert_ne, Hj by discriminate. now rewrite insert_insert_eq.
    + intros k H1 H2. now rewrite lookup_insert_ne by congruence.
    + now rewrite lookup_insert_ne by discriminate.
Qed.

Lemma main_initramfs_frame_witness :
  main_initramfs (Some "build") true
    (<["jobs" := VJobs [("w-j0", set_initramfs disk_job);
                        ("w-j1", set_initramfs bare_job)]]>
       (set_initramfs workload_cfg)) =
  Ok (<["jobs" := VJobs [("w-j0", set_initramfs disk_job);
                         ("w-j1", set_initramfs bare_job)]]>
        (set_initramfs workload_cfg)).
Proof.
  apply (main_initramfs_frame (Some "build") true workload_cfg). reflexivity.
Defined.

(** ** [getQemuCmd] *)

(** X5: [getQemuCmd] returns a command exactly when [bin] is a string
    and the disk is either not asked for ([initramfs] set, or no [img]) or
    a string too. *)
Theorem getQemuCmd_succeeds_iff (config : config) (initramfs : bool) :
  (exists cmd, getQemuCmd config initramfs = Ok cmd) <->
  (exists b, config !! "bin" = Some (VStr b)) /\
  (initramfs = true \/ config !! "img" = None \/
   exists i, config !! "img" = Some (VStr i)).
Proof.
  unfold getQemuCmd, getitem, has_key.
  destruct (config !! "bin") as [[]|], initramfs, (config !! "img") as [[]|];
    simpl; split;
    try (intros [? H]; discriminate H);
    try (intros [[? H] _]; discriminate H);
    try (intros [_ [H|[H|[? H]]]]; discriminate H);
    try (intros _; eexists; reflexivity);
    intros _; split; eauto.
Qed.

(** X6: with [initramfs] set the command does not look at [img]: setting,
    changing or removing the image path leaves it as it is. *)
Theorem getQemuCmd_initramfs_ignores_img (config : config) (v : value) :
  getQemuCmd (<["img" := v]> config) true = getQemuCmd config true /\
  getQemuCmd (delete "img" config) true = getQemuCmd config true.
Proof.
  unfold getQemuCmd, getitem.
  rewrite lookup_insert_ne, lookup_delete_ne by discriminate.
  rewrite !andb_false_r. split; reflexivity.
Qed.

(** [" ".join] of strings. *)
Fixpoint join_sp (l : list string) : string :=
  match l with
  | [] => ""
  | [a] => a
  | a :: rest => a +:+ " " +:+ join_sp rest
  end.

Lemma join_space_strings (l : list string) :
  join_space (map VStr l) = Ok (join_sp l).
Proof.
  induction l as [|a [|b l] IH]; try reflexivity.
  change (join_space (map VStr (a :: b :: l)))
    with (rbind (join_space (map VStr (b :: l))) (fun r => Ok (a +:+ " " +:+ r))).
  now rewrite IH.
Qed.

Lemma join_sp_app (l1 l2 : list string) :
  l1 <> [] -> l2 <> [] ->
  join_sp (l1 ++ l2) = join_sp l1 +:+ " " +:+ join_sp l2.
Proof.
  intros H1 H2. induction l1 as [|a [|b l1] IH]; [contradiction | |].
  - destruct l2; [contradiction | reflexivity].
  - change (join_sp ((a :: b :: l1) ++ l2))
      with (a +:+ " " +:+ join_sp ((b :: l1) ++ l2)).
    rewrite IH by discriminate.
    change (join_sp (a :: b :: l1)) with (a +:+ " " +:+ join_sp (b :: l1)).
    now rewrite !PathFacts.append_assoc.
Qed.

(** The arguments that attach the disk image [i]. *)
Definition qemu_disk_args (i : string) : list string :=
  ["-device"; "virtio-blk-device,drive=hd0";
   "-drive"; "file=" +:+ i +:+ ",format=raw,id=hd0";
   "-append"; String dquote ("ro root=/dev/vda" +:+ String dquote "")].

(** X7: the command for a disk-based record is the command for the same
    record without its image, followed by the arguments that attach the
    disk and name it as the root device. *)
Theorem getQemuCmd_disk_extends (config : config) (b i : string)
    (Hb : config !! "bin" = Some (VStr b))
    (Hi : config !! "img" = Some (VStr i)) :
  exists base,
    getQemuCmd (delete "img" config) false = Ok base /\
    getQemuCmd config false = Ok (base +:+ " " +:+ join_sp (qemu_disk_args i)).
Proof.
  unfold getQemuCmd, getitem, has_key.
  rewrite lookup_delete_ne, lookup_delete_eq, Hb, Hi by discriminate.
  set (l := ["qemu-system-riscv64"; "-nographic"; "-smp"; "4"; "-machine"; "virt";
             "-m"; "4G"; "-kernel"; b;
             "-object"; "rng-random,filename=/dev/urandom,id=rng0";
             "-device"; "virtio-rng-device,rng=rng0";
             "-device"; "virtio-net-device,netdev=usernet";
             "-netdev"; "user,id=usernet,hostfwd=tcp::10000-:22"]).
  exists (join_sp l). split; [exact (join_space_strings l) |].
  transitivity (Ok (join_sp (l ++ qemu_disk_args i)));
    [exact (join_space_strings (l ++ qemu_disk_args i)) |].
  f_equal. apply join_sp_app; discriminate.
Qed.

Lemma getQemuCmd_disk_extends_witness :
  exists base,
    getQemuCmd (delete "img" layered_cfg) false = Ok base /\
    getQemuCmd layered_cfg false =
      Ok (base +:+ " " +:+ join_sp (qemu_disk_args "test.img")).
Proof.
  apply (getQemuCmd_disk_extends layered_cfg "test-bin" "test.img"); reflexivity.
Defined.

(** ** What [copyImgFiles] copies, and when it stops *)

Section CopyOrder.
Variable W : world.

(** The [rsync] call of one file in the given direction. *)
Definition copy_call (direction : string) (f : FileSpec) : call :=
  if decide (direction = "in") then rsync_in W f else rsync_out W f.

Lemma copy_one_call (direction : string) (f : FileSpec) (t : trace) :
  direction = "in" \/ direction = "out" ->
  copy_one W direction f t =
    (match call_fails W t (copy_call direction f) with
     | Some e => Err e
     | None => Ok tt
     end, copy_call direction f :: t).
Proof.
  intros Hd. unfold copy_one, copy_call, bind, do, ret.
  destruct (decide (direction = "in")) as [|n].
  - destruct (call_fails W t (rsync_in W f)); reflexivity.
  - destruct Hd as [|Hd]; [contradiction |].
    destruct (decide (direction = "out")); [| contradiction].
    destruct (call_fails W t (rsync_out W f)); reflexivity.
Qed.

Lemma for_each_copy_Ok (direction : string) (files : list FileSpec) (t t' : trace) :
  direction = "in" \/ direction = "out" ->
  for_each files (copy_one W direction) t = (Ok tt, t') ->
  t' = rev (map (copy_call direction) files) ++ t.
Proof.
  intros Hd. revert t. induction files as [|f rest IH]; intros t H.
  - inversion H. reflexivity.
  - simpl in H. unfold bind in H. rewrite (copy_one_call direction f t Hd) in H.
    destruct (call_fails W t (copy_call direction f)); [discriminate H |].
    apply IH in H. subst t'. simpl. now rewrite <- app_assoc.
Qed.

Lemma for_each_copy_stops (direction : string) (pre post : list FileSpec)
    (f : FileSpec) (t t2 : trace) (e : exn) :
  direction = "in" \/ direction = "out" ->
  for_each pre (copy_one W direction) t = (Ok tt, t2) ->
  call_fails W t2 (copy_call direction f) = Some e ->
  for_each (pre ++ f :: post) (copy_one W direction) t =
    (Err e, copy_call direction f :: t2).
Proof.
  intros Hd. revert t. induction pre as [|g pre IH]; intros t Hpre Hf.
  - inversion Hpre; subst. simpl. unfold bind.
    rewrite (copy_one_call direction f t2 Hd), Hf. reflexivity.
  - simpl in Hpre |- *. unfold bind in Hpre |- *.
    destruct (copy_one W direction g t) as [[[]|e'] t1]; [| discriminate Hpre].
    now apply IH.
Qed.

(** X8: a [copyImgFiles] that returns normally has mounted the image,
    copied every file of the list exactly once and in list order, and
    unmounted; it has made no other call, except the [mkdir] of a missing
    mount point. *)
Theorem copyImgFiles_copies_in_order (img : string) (files : list FileSpec)
    (direction : string) (t t' : trace)
    (Hd : direction = "in" \/ direction = "out")
    (Hok : copyImgFiles W img files direction t = (Ok tt, t')) :
  exists mk,
    mkdir_or_not W mk /\
    t' = umount_cmd W :: rev (map (copy_call direction) files)
           ++ mount_cmd W img :: mk ++ t.
Proof.
  destruct (mount_image W img t) as [[[]|e] t1] eqn:Hm.
  - rewrite (copyImgFiles_mounted W img files direction t t1 Hm) in Hok.
    destruct (mount_image_inv W img t t1 Hm) as (mk & -> & Hmk & _).
    exists mk. split; [exact Hmk |].
    destruct (for_each files (copy_one W direction) _) as [rb tb] eqn:Hloop.
    simpl in Hok. destruct (call_fails W tb (umount_cmd W)); [discriminate Hok |].
    inversion Hok; subst. apply (for_each_copy_Ok direction files _ _ Hd) in Hloop.
    now subst tb.
  - unfold copyImgFiles in Hok. rewrite (bind_Err _ _ _ _ _ Hm) in Hok. discriminate Hok.
Qed.

(** X9: when the copy of a file fails, the files after it are not
    copied: the [umount] is the next and last call.  The caller gets the
    error of the failed copy, unless the [umount] fails too: then it gets
    the error of the [umount]. *)
Theorem copyImgFiles_stops_at_first_failure (img : string) (pre post : list FileSpec)
    (f : FileSpec) (direction : string) (t0 t1 t2 : trace) (e : exn)
    (Hd : direction = "in" \/ direction = "out")
    (Hm : mount_image W img t0 = (Ok tt, t1))
    (Hpre : for_each pre (copy_one W direction) t1 = (Ok tt, t2))
    (Hf : call_fails W t2 (copy_call direction f) = Some e) :
  copyImgFiles W img (pre ++ f :: post) direction t0 =
    (match call_fails W (copy_call direction f :: t2) (umount_cmd W) with
     | Some e' => Err e'
     | None => Err e
     end,
     umount_cmd W :: copy_call direction f :: t2) /\
  t2 = rev (map (copy_call direction) pre) ++ t1.
Proof.
  split; [| now apply (for_each_copy_Ok direction pre t1 t2 Hd)].
  rewrite (copyImgFiles_mounted W img _ direction t0 t1 Hm).
  rewrite (for_each_copy_stops direction pre post f t1 t2 e Hd Hpre Hf).
  reflexivity.
Qed.

(** X10: when the image cannot be mounted, [copyImgFiles] fails with
    the error of the [mkdir] or of the [mount], and has made no other
    call: nothing is copied and nothing is unmounted. *)
Theorem copyImgFiles_mount_fails (img : string) (files : list FileSpec)
    (direction : string) (t t1 : trace) (e : exn)
    (Hm : mount_image W img t = (Err e, t1)) :
  copyImgFiles W img files direction t = (Err e, t1) /\
  (t1 = Run ["mkdir"; mnt W] None :: t \/
   t1 = mount_cmd W img :: t \/
   t1 = mount_cmd W img :: Run ["mkdir"; mnt W] None :: t).
Proof.
  split.
  - unfold copyImgFiles. now apply bind_Err.
  - revert Hm. unfold mount_image, bind, exists_, when, ret, do.
    destruct (path_exists W t (mnt W)); simpl.
    + destruct (call_fails W t (mount_cmd W img)); intros H; inversion H. auto.
    + destruct (call_fails W t (Run ["mkdir"; mnt W] None)); simpl.
      * intros H; inversion H. auto.
      * destruct (call_fails W _ (mount_cmd W img)); intros H; inversion H. auto.
Qed.

(** X11: [applyOverlay] copies the contents of the overlay directory
    onto the root of the image: for an absolute mount point of plain
    components and an overlay directory given without a trailing slash, the
    one [rsync] of a successful call goes from [overlay/*] to the mount
    point itself. *)
Theorem applyOverlay_onto_root (cs : list string) (img overlay : string) (t t' : trace)
    (Hmnt : mnt W = PathFacts.abs_path cs)
    (Hne : cs <> [])
    (Hplain : Forall (fun c => PathFacts.plain c = true) cs)
    (Ho : overlay <> "")
    (Hs : Path.endswith_slash overlay = false)
    (Hok : applyOverlay W img overlay t = (Ok tt, t')) :
  exists mk,
    mkdir_or_not W mk /\
    t' = umount_cmd W
           :: RunShell ("sudo rsync -a --chown=root:root " +:+ (overlay +:+ "/" +:+ "*")
                        +:+ " " +:+ mnt W) None
           :: mount_cmd W img :: mk ++ t.
Proof.
  destruct (applyOverlay_inv W img overlay t t' tt Hok) as (mk & -> & Hmk).
  exists mk. split; [exact Hmk |].
  unfold overlay_applied, rsync_in, overlay_spec, in_mount. simpl src. simpl dst.
  assert (Hin : Path.normpath (mnt W +:+ "/") = mnt W).
  { rewrite Hmnt.
    change "/" with (PathFacts.abs_path []).
    rewrite (PathFacts.normpath_abs_abs cs [] Hne Hplain ltac:(constructor)).
    now rewrite app_nil_r. }
  rewrite Hin.
  assert (Hj : Path.join overlay "*" = overlay +:+ "/" +:+ "*").
  { unfold Path.join. simpl Path.startswith_slash.
    destruct (decide ("*"%char = Path.slash)) as [E|_]; [discriminate E |].
    destruct (decide (overlay = "")); [contradiction |]. now rewrite Hs. }
  rewrite Hj. reflexivity.
Qed.

End CopyOrder.

(** A world in which an [rsync] that directly follows another one
    fails. *)
Definition second_rsync_fails_world : world :=
  mkWorld "/mnt" "-j4" 1000 (fun _ => "[...]")
    (fun _ _ => true)
    (fun t c => match c, t with
                | RunShell _ _, RunShell _ _ :: _ => Some CalledProcessError
                | _, _ => None
                end)
    (fun _ _ => "").

Lemma copyImgFiles_copies_in_order_witness :
  exists mk,
    snd (copyImgFiles calm_world "test.img"
           [mkFileSpec "/run/out.csv" "/res/"; mkFileSpec "/run/log" "/res/"] "out" []) =
    umount_cmd calm_world
      :: [RunShell "sudo rsync -a --chown=1000:1000 /mnt/run/log /res/" None;
          RunShell "sudo rsync -a --chown=1000:1000 /mnt/run/out.csv /res/" None]
      ++ mount_cmd calm_world "test.img" :: mk ++ [].
Proof.
  destruct (copyImgFiles_copies_in_order calm_world "test.img"
              [mkFileSpec "/run/out.csv" "/res/"; mkFileSpec "/run/log" "/res/"] "out" []
              (snd (copyImgFiles calm_world "test.img"
                      [mkFileSpec "/run/out.csv" "/res/"; mkFileSpec "/run/log" "/res/"]
                      "out" []))
              (or_intror eq_refl) eq_refl) as (mk & _ & H).
  exists mk. exact H.
Defined.

Lemma copyImgFiles_stops_at_first_failure_witness :
  copyImgFiles second_rsync_fails_world "test.img"
    [mkFileSpec "/a" "/"; mkFileSpec "/b" "/"; mkFileSpec "/c" "/"] "in" [] =
  (Err CalledProcessError,
   [Run ["sudo"; "umount"; "/mnt"] None;
    RunShell "sudo rsync -a --chown=root:root /b /mnt" None;
    RunShell "sudo rsync -a --chown=root:root /a /mnt" None;
    Run ["sudo"; "mount"; "-o"; "loop"; "test.img"; "/mnt"] None]).
Proof.
  apply (copyImgFiles_stops_at_first_failure second_rsync_fails_world "test.img"
           [mkFileSpec "/a" "/"] [mkFileSpec "/c" "/"] (mkFileSpec "/b" "/") "in" []
           [Run ["sudo"; "mount"; "-o"; "loop"; "test.img"; "/mnt"] None]
           [RunShell "sudo rsync -a --chown=root:root /a /mnt" None;
            Run ["sudo"; "mount"; "-o"; "loop"; "test.img"; "/mnt"] None]
           CalledProcessError (or_introl eq_refl));
    reflexivity.
Defined.

Lemma copyImgFiles_mount_fails_witness :
  copyImgFiles mount_fails_world "test.img" [mkFileSpec "/a" "/"] "in" [] =
    (Err CalledProcessError,
     [Run ["sudo"; "mount"; "-o"; "loop"; "test.img"; "/mnt"] None]).
Proof.
  apply (copyImgFiles_mount_fails mount_fails_world "test.img" [mkFileSpec "/a" "/"] "in" []).
  reflexivity.
Defined.

Lemma applyOverlay_onto_root_witness :
  exists mk,
    snd (applyOverlay calm_world "test.img" "/overlay/none" []) =
    umount_cmd calm_world
      :: RunShell "sudo rsync -a --chown=root:root /overlay/none/* /mnt" None
      :: mount_cmd calm_world "test.img" :: mk ++ [].
Proof.
  destruct (applyOverlay_onto_root calm_world ["mnt"] "test.img" "/overlay/none" []
              (snd (applyOverlay calm_world "test.img" "/overlay/none" []))
              eq_refl ltac:(discriminate) ltac:(repeat constructor)
              ltac:(discriminate) eq_refl eq_refl) as (mk & _ & H).
  exists mk. exact H.
Defined.

(** ** The calls a computation adds *)

(** [emits P m]: whatever the outcome, [m] keeps the trace it finds and
    adds only calls that satisfy [P]. *)
Definition emits {A} (P : call -> Prop) (m : M trace A) : Prop :=
  forall t, exists b, snd (m t) = b ++ t /\ Forall P b.

Section Emits.
Variable W : world.
Variable P : call -> Prop.

Lemma emits_ret {A} (a : A) : emits P (ret a).
Proof. intros t. exists []. split; [reflexivity | constructor]. Qed.

Lemma emits_raise {A} (e : exn) : emits P (raise (A := A) e).
Proof. intros t. exists []. split; [reflexivity | constructor]. Qed.

Lemma emits_lift {A} (r : result A) : emits P (lift r).
Proof. intros t. exists []. split; [reflexivity | constructor]. Qed.

Lemma emits_exists (p : string) : emits P (exists_ W p).
Proof. intros t. exists []. split; [reflexivity | constructor]. Qed.

Lemma emits_say (c : call) : P c -> emits P (say c).
Proof. intros Hc t. exists [c]. split; [reflexivity | repeat constructor; exact Hc]. Qed.

Lemma emits_do (c : call) : P c -> emits P (do W c).
Proof.
  intros Hc t. exists [c]. unfold do.
  split; [destruct (call_fails W t c); reflexivity | repeat constructor; exact Hc].
Qed.

Lemma emits_bind {A B} (m : M trace A) (k : A -> M trace B) :
  emits P m -> (forall a, emits P (k a)) -> emits P (bind m k).
Proof.
  intros Hm Hk t. unfold bind. destruct (Hm t) as (b1 & E1 & F1).
  destruct (m t) as [[a|e] t1]; simpl in E1; subst t1.
  - destruct (Hk a (b1 ++ t)) as (b2 & E2 & F2).
    exists (b2 ++ b1). rewrite E2, app_assoc. split; [reflexivity |].
    apply Forall_app. auto.
  - exists b1. auto.
Qed.

Lemma emits_when (b : bool) (m : M trace unit) : emits P m -> emits P (when b m).
Proof. destruct b; [auto | intros _; apply emits_ret]. Qed.

Lemma emits_try_finally {A} (body : M trace A) (cleanup : M trace unit) :
  emits P body -> emits P cleanup -> emits P (try_finally body cleanup).
Proof.
  intros Hb Hc t. unfold try_finally. destruct (Hb t) as (b1 & E1 & F1).
  destruct (body t) as [r t1]; simpl in E1; subst t1.
  destruct (Hc (b1 ++ t)) as (b2 & E2 & F2).
  destruct (cleanup (b1 ++ t)) as [[u|e] t2]; simpl in E2; subst t2;
    exists (b2 ++ b1); rewrite app_assoc; (split; [reflexivity |]);
    apply Forall_app; auto.
Qed.

Lemma emits_for_each {A} (xs : list A) (body : A -> M trace unit) :
  (forall x, emits P (body x)) -> emits P (for_each xs body).
Proof.
  intros Hb. induction xs as [|x xs IH]; simpl.
  - apply emits_ret.
  - apply emits_bind; [apply Hb | intros _; exact IH].
Qed.

Lemma emits_copyImgFiles (img : string) (files : list FileSpec) (direction : string) :
  (forall argv cwd, P (Run argv cwd)) ->
  (forall cmd cwd, P (RunShell cmd cwd)) ->
  emits P (copyImgFiles W img files direction).
Proof.
  intros HR HS. unfold copyImgFiles, mount_image.
  apply emits_bind; [| intros _; apply emits_try_finally].
  - apply emits_bind; [apply emits_exists | intros e].
    apply emits_bind; [apply emits_when | intros _].
    + apply emits_bind; [apply emits_do, HR | intros _; apply emits_ret].
    + apply emits_bind; [apply emits_do, HR | intros _; apply emits_ret].
  - apply emits_for_each. intros f. unfold copy_one.
    repeat destruct (decide _);
      [apply emits_bind; [apply emits_do, HS | intros _; apply emits_ret] ..
      | apply emits_raise].
  - apply emits_bind; [apply emits_do, HR | intros _; apply emits_ret].
Qed.

End Emits.

Lemma emits_In {A B} (m : M trace A) (k : A -> M trace B) (c : call) (t : trace) :
  In c (snd (m t)) ->
  (forall a, emits (fun _ => True) (k a)) ->
  In c (snd (bind m k t)).
Proof.
  intros Hin Hk. unfold bind. destruct (m t) as [[a|e] t1]; simpl in *; [| exact Hin].
  destruct (Hk a t1) as (b & E & _). rewrite E. apply in_app_iff. now right.
Qed.

(** Solves [emits (fun _ => True) m] for a computation written with the
    combinators. *)
Ltac emits_any :=
  repeat first
    [ apply emits_ret | apply emits_raise | apply emits_lift | apply emits_exists
    | apply emits_say; exact I | apply emits_do; exact I
    | apply emits_when | apply emits_try_finally
    | apply emits_bind; [| intros ?]
    | match goal with |- emits _ (if ?b then _ else _) => destruct b end
    | match goal with |- emits _ (match ?o with _ => _ end) => destruct o end ].

(** ** [makeBin] with a kernel to build *)

Tactic Notation "step_bind" hyp(H) "as" ident(a) ident(Hm) "at" ident(s) :=
  apply bind_inv_Ok in H; destruct H as (a & s & Hm & H).

Tactic Notation "step_lift" hyp(H) "as" ident(E) :=
  apply lift_inv_Ok in H; destruct H as (E & ->).

Lemma emits_inv {A} (m : M trace A) (t t' : trace) (r : result A) :
  emits (fun _ => True) m -> m t = (r, t') -> exists b, t' = b ++ t.
Proof.
  intros Hm E. destruct (Hm t) as (b & Hb & _). rewrite E in Hb. eauto.
Qed.

(** X12: the temporary archive of an initramfs build is always closed:
    once the kernel configuration has been copied and the temporary file
    opened, its close is among the calls [makeBin] makes, whether packing
    the image and building the kernel succeed or not. *)
Theorem makeBin_closes_temp (W : world) (config : config) (lc ls : string) (t : trace)
    (Hlc : config !! "linux-config" = Some (VStr lc))
    (Hls : config !! "linux-src" = Some (VStr ls))
    (Hcp : call_fails W t (ShutilCopy lc (Path.join ls ".config")) = None)
    (Htmp : call_fails W (ShutilCopy lc (Path.join ls ".config") :: t)
              (TmpOpen ".cpio") = None) :
  In (TmpClose (call_returns W (ShutilCopy lc (Path.join ls ".config") :: t)
                  (TmpOpen ".cpio")))
     (snd (makeBin W config true t)).
Proof.
  unfold makeBin. rewrite Hlc.
  unfold getitem. rewrite Hls. simpl rbind.
  rewrite (bind_Ok (lift (Ok ls)) _ t ls t eq_refl).
  rewrite (bind_Ok (lift (Ok lc)) _ t lc t eq_refl).
  rewrite (bind_Ok _ _ _ _ _ (do_Ok W _ t Hcp)).
  apply emits_In; [| intros ?; emits_any].
  rewrite (bind_Ok _ _ _ _ _ (do_Ok W _ _ Htmp)).
  unfold try_finally.
  match goal with |- context [match ?body ?t0 with _ => _ end] =>
    destruct (body t0) as [r tb] end.
  unfold bind at 1. unfold do at 1.
  destruct (call_fails W tb _); simpl; left; reflexivity.
Qed.

(** A world in which packing the image into an archive fails. *)
Definition cpio_fails_world : world :=
  mkWorld "/mnt" "-j4" 1000 (fun _ => "[...]")
    (fun _ _ => true)
    (fun _ c => match c with ToCpio _ _ _ => Some CalledProcessError | _ => None end)
    (fun _ c => match c with TmpOpen _ => "/tmp/x.cpio" | _ => "" end).

Definition kernel_cfg : config :=
  <["linux-config" := VStr "/w/linux.cfg"]>
    (<["linux-src" := VStr "/linux"]>
       (<["img" := VStr "test.img"]> (<["bin" := VStr "test-bin"]> ∅))).

Lemma makeBin_closes_temp_witness :
  In (TmpClose "/tmp/x.cpio") (snd (makeBin cpio_fails_world kernel_cfg true [])).
Proof.
  apply (makeBin_closes_temp cpio_fails_world kernel_cfg "/w/linux.cfg" "/linux" []);
    reflexivity.
Defined.

Example makeBin_cpio_fails :
  makeBin cpio_fails_world kernel_cfg true [] =
  (Err CalledProcessError,
   [TmpClose "/tmp/x.cpio";
    ToCpio kernel_cfg (VStr "test.img") "/tmp/x.cpio";
    TmpOpen ".cpio";
    ShutilCopy "/w/linux.cfg" "/linux/.config"]).
Proof. vm_compute. reflexivity. Qed.

(** X13: a [makeBin] that builds and returns normally starts by copying
    [linux-config] over the [.config] of the kernel tree and ends, after
    configuring and making [riscv-pk], by copying the resulting [bbl] to
    [bin], or to [bin + "-initramfs"] when [initramfs] is set: the one
    target that [addDep] declares for the rule with this action. *)
Theorem makeBin_produces_target (W : world) (config : config) (initramfs : bool)
    (t t' : trace)
    (Hlc : is_Some (config !! "linux-config"))
    (Hok : makeBin W config initramfs t = (Ok tt, t')) :
  exists b lc ls mid,
    config !! "bin" = Some (VStr b) /\
    config !! "linux-config" = Some (VStr lc) /\
    config !! "linux-src" = Some (VStr ls) /\
    t' = ShutilCopy "riscv-pk/build/bbl" (if initramfs then b +:+ "-initramfs" else b)
           :: Run ["make"; jlevel W] (Some "riscv-pk/build")
           :: Run ["../configure"; "--host=riscv64-unknown-elf";
                   "--with-payload=" +:+ Path.join ls "vmlinux"]
                  (Some "riscv-pk/build")
           :: OsMkdir "riscv-pk/build"
           :: mid ++ ShutilCopy lc (Path.join ls ".config") :: t.
Proof.
  destruct Hlc as [v Hlc]. unfold makeBin in Hok. rewrite Hlc in Hok.
  step_bind Hok as ls Hm at s. step_lift Hm as Els. apply get_str_inv in Els.
  step_bind Hok as lc Hm at s. step_lift Hm as Elc.
  destruct v; try discriminate Elc. inversion Elc; subst; clear Elc.
  step_bind Hok as x1 Hm at t1. apply do_inv_Ok in Hm as (-> & _ & _).
  step_bind Hok as u1 Hm at t2.
  apply emits_inv in Hm as [m1 ->]; [| destruct initramfs; emits_any].
  step_bind Hok as e Hm at s. apply exists_inv in Hm as (_ & ->).
  step_bind Hok as u2 Hm at t3.
  apply emits_inv in Hm as [m2 ->]; [| emits_any].
  step_bind Hok as x2 Hm at s. apply do_inv_Ok in Hm as (-> & _ & _).
  step_bind Hok as x3 Hm at s. apply do_inv_Ok in Hm as (-> & _ & _).
  step_bind Hok as x4 Hm at s. apply do_inv_Ok in Hm as (-> & _ & _).
  destruct initramfs.
  - step_bind Hok as b' Hm at s. step_lift Hm as Eb.
    apply rbind_inv_Ok in Eb as (vb & Eb & Es).
    apply rbind_inv_Ok in Eb as (vb0 & Eb & Ea).
    unfold getitem in Eb. destruct (config !! "bin") as [w|] eqn:Hb; [| discriminate Eb].
    inversion Eb; subst. destruct vb0 as [sb| | | | |]; try discriminate Ea.
    inversion Ea; subst. inversion Es; subst.
    step_bind Hok as x5 Hm at s. apply do_inv_Ok in Hm as (-> & _ & _).
    inversion Hok; subst.
    exists sb, lc, ls, (m2 ++ m1). rewrite <- app_assoc. auto.
  - step_bind Hok as b' Hm at s. step_lift Hm as Eb. apply get_str_inv in Eb.
    step_bind Hok as x5 Hm at s. apply do_inv_Ok in Hm as (-> & _ & _).
    inversion Hok; subst.
    exists b', lc, ls, (m2 ++ m1). rewrite <- app_assoc. auto.
Qed.

Lemma makeBin_produces_target_witness :
  exists mid,
    snd (makeBin calm_world kernel_cfg true []) =
    ShutilCopy "riscv-pk/build/bbl" "test-bin-initramfs"
      :: Run ["make"; "-j4"] (Some "riscv-pk/build")
      :: Run ["../configure"; "--host=riscv64-unknown-elf"; "--with-payload=/linux/vmlinux"]
             (Some "riscv-pk/build")
      :: OsMkdir "riscv-pk/build"
      :: mid ++ [ShutilCopy "/w/linux.cfg" "/linux/.config"].
Proof.
  destruct (makeBin_produces_target calm_world kernel_cfg true []
              (snd (makeBin calm_world kernel_cfg true []))
              (ex_intro _ (VStr "/w/linux.cfg") eq_refl) eq_refl)
    as (b & lc & ls & mid & Hb & Hlc & Hls & H).
  inversion Hb; subst b. inversion Hlc; subst lc. inversion Hls; subst ls.
  exists mid. exact H.
Defined.

(** ** What [makeImage] does not do *)

(** Solves [emits P m] where every call of [m] makes [P] compute to
    [True]. *)
Ltac emits_calls :=
  repeat first
    [ apply emits_ret | apply emits_raise | apply emits_lift | apply emits_exists
    | apply emits_say; exact I | apply emits_do; exact I
    | apply emits_copyImgFiles; intros; exact I
    | apply emits_when | apply emits_try_finally
    | apply emits_bind; [| intros ?]
    | match goal with |- emits _ (if ?b then _ else _) => destruct b end
    | match goal with |- emits _ (match ?o with _ => _ end) => destruct o end ].

(** Neither a boot of the image nor the overlay that clears the boot
    script. *)
Definition no_boot_no_clear (c : call) : Prop :=
  match c with
  | CheckCall _ => False
  | GenerateBootScriptOverlay _ None => False
  | _ => True
  end.

(** X14: for a record without [guest-init], [makeImage] never boots the
    image and never installs the overlay that clears the boot script,
    whatever else it does and however it ends. *)
Theorem makeImage_without_init_never_boots (W : world) (config : config) (t : trace)
    (Hgi : config !! "guest-init" = None) :
  exists b,
    snd (makeImage W config t) = b ++ t /\ Forall no_boot_no_clear b.
Proof.
  revert t. change (emits no_boot_no_clear (makeImage W config)).
  unfold makeImage, makeImage_base, makeImage_files, makeImage_init, makeImage_run,
    applyOverlay, generateBootScriptOverlay.
  unfold has_key at 3. rewrite Hgi.
  emits_calls.
Qed.

Definition run_only_cfg : config :=
  <["runSpec" := VRunSpec (mkRunSpec None (Some "/w/run.sh"))]>
    (<["files" := VFiles [mkFileSpec "/host/etc/motd" "/etc/motd"]]>
       (<["builder" := VBuilder "br"]>
          (<["img" := VStr "test.img"]> (<["bin" := VStr "test-bin"]> ∅)))).

Lemma makeImage_without_init_never_boots_witness :
  exists b,
    snd (makeImage calm_world run_only_cfg []) = b ++ [] /\ Forall no_boot_no_clear b.
Proof.
  apply (makeImage_without_init_never_boots calm_world run_only_cfg []). reflexivity.
Defined.

(** Neither a boot of the image nor any boot-script overlay. *)
Definition no_boot_no_overlay (c : call) : Prop :=
  match c with
  | CheckCall _ => False
  | GenerateBootScriptOverlay _ _ => False
  | _ => True
  end.

Lemma makeImage_init_missing_script (W : world) (config : config) (gi : string)
    (t : trace) :
  config !! "guest-init" = Some (VStr gi) ->
  path_exists W (LogInfo ("Applying init script: " +:+ gi) :: t) gi = false ->
  makeImage_init W config t =
    (Err (ValueError ("Init script " +:+ gi +:+ " not found.")),
     LogInfo ("Applying init script: " +:+ gi) :: t).
Proof.
  intros Hgi Hm. unfold makeImage_init, when, has_key, getitem. rewrite Hgi.
  unfold bind, lift, say, exists_. simpl. rewrite Hm. reflexivity.
Qed.

(** X15: when the [guest-init] script does not exist, [makeImage]
    fails: with the [ValueError] that names the script once the base image
    and the files have been applied, with their error otherwise.  No boot
    overlay is generated and the image is not booted. *)
Theorem makeImage_missing_init_script (W : world) (config : config) (gi : string)
    (t : trace)
    (Hgi : config !! "guest-init" = Some (VStr gi))
    (Hmiss : forall t', path_exists W t' gi = false) :
  fst (makeImage W config t) =
    match bind (makeImage_base W config) (fun _ => makeImage_files W config) t with
    | (Ok _, _) => Err (ValueError ("Init script " +:+ gi +:+ " not found."))
    | (Err e, _) => Err e
    end /\
  exists b, snd (makeImage W config t) = b ++ t /\ Forall no_boot_no_overlay b.
Proof.
  assert (Hbf : emits no_boot_no_overlay
                  (bind (makeImage_base W config) (fun _ => makeImage_files W config))).
  { unfold makeImage_base, makeImage_files. emits_calls. }
  destruct (Hbf t) as (b & Eb & Fb).
  unfold makeImage.
  unfold bind in Eb |- *.
  destruct (makeImage_base W config t) as [[u1|e1] t1]; simpl in *.
  - destruct (makeImage_files W config t1) as [[u2|e2] t2]; simpl in *.
    + rewrite (makeImage_init_missing_script W config gi t2 Hgi (Hmiss _)). simpl.
      split; [reflexivity |]. subst t2.
      exists (LogInfo ("Applying init script: " +:+ gi) :: b).
      split; [reflexivity |]. constructor; [exact I | exact Fb].
    + split; [reflexivity |]. exists b. auto.
  - split; [reflexivity |]. exists b. auto.
Qed.

(** A world in which nothing exists on the host. *)
Definition empty_host_world : world :=
  mkWorld "/mnt" "-j4" 1000 (fun _ => "[...]")
    (fun _ _ => false) (fun _ _ => None) (fun _ _ => "").

Lemma makeImage_missing_init_script_witness :
  fst (makeImage empty_host_world init_cfg []) =
    Err (ValueError "Init script /w/init.sh not found.").
Proof.
  exact (proj1 (makeImage_missing_init_script empty_host_world init_cfg "/w/init.sh" []
                  eq_refl (fun _ => eq_refl))).
Defined.

(** ** Invariants of the trace *)

(** [preserves I m]: if [I] holds of the trace before [m], it holds of
    the trace after, whatever the outcome. *)
Definition preserves {A} (I : trace -> Prop) (m : M trace A) : Prop :=
  forall t, I t -> I (snd (m t)).

Section Preserves.
Variable W : world.
Variable I : trace -> Prop.
Variable neutral : call -> Prop.
Hypothesis neutral_cons : forall c t, neutral c -> I t -> I (c :: t).

Lemma preserves_ret {A} (a : A) : preserves I (ret a).
Proof. intros t H. exact H. Qed.

Lemma preserves_raise {A} (e : exn) : preserves I (raise (A := A) e).
Proof. intros t H. exact H. Qed.

Lemma preserves_lift {A} (r : result A) : preserves I (lift r).
Proof. intros t H. exact H. Qed.

Lemma preserves_exists (p : string) : preserves I (exists_ W p).
Proof. intros t H. exact H. Qed.

Lemma preserves_say (c : call) : neutral c -> preserves I (say c).
Proof. intros Hc t H. now apply neutral_cons. Qed.

Lemma preserves_do (c : call) : neutral c -> preserves I (do W c).
Proof.
  intros Hc t H. unfold do. destruct (call_fails W t c); now apply neutral_cons.
Qed.

Lemma preserves_bind {A B} (m : M trace A) (k : A -> M trace B) :
  preserves I m -> (forall a, preserves I (k a)) -> preserves I (bind m k).
Proof.
  intros Hm Hk t H. unfold bind. specialize (Hm t H).
  destruct (m t) as [[a|e] t1]; simpl in Hm; [now apply Hk | exact Hm].
Qed.

Lemma preserves_when (b : bool) (m : M trace unit) :
  preserves I m -> preserves I (when b m).
Proof. destruct b; [auto | intros _; apply preserves_ret]. Qed.

Lemma preserves_try_finally {A} (body : M trace A) (cleanup : M trace unit) :
  preserves I body -> preserves I cleanup -> preserves I (try_finally body cleanup).
Proof.
  intros Hb Hc t H. unfold try_finally. specialize (Hb t H).
  destruct (body t) as [r t1]. simpl in Hb. specialize (Hc t1 Hb).
  destruct (cleanup t1) as [[u|e] t2]; exact Hc.
Qed.

Lemma preserves_for_each {A} (xs : list A) (body : A -> M trace unit) :
  (forall x, preserves I (body x)) -> preserves I (for_each xs body).
Proof.
  intros Hb. induction xs as [|x xs IH]; simpl.
  - apply preserves_ret.
  - apply preserves_bind; [apply Hb | intros _; exact IH].
Qed.

Lemma preserves_copy_loop (files : list FileSpec) (direction : string) :
  (forall cmd cwd, neutral (RunShell cmd cwd)) ->
  preserves I (for_each files (copy_one W direction)).
Proof.
  intros HS. apply preserves_for_each. intros f. unfold copy_one.
  repeat destruct (decide _);
    [apply preserves_bind; [apply preserves_do, HS | intros _; apply preserves_ret] ..
    | apply preserves_raise].
Qed.

End Preserves.

Section BootInvariant.
Variable W : world.

(** Every overlay that clears the boot script was generated right after
    a boot of the image that succeeded. *)
Fixpoint cleared_after_boot (t : trace) : Prop :=
  match t with
  | [] => True
  | GenerateBootScriptOverlay _ None :: rest =>
      match rest with
      | CheckCall cmd :: before => call_fails W before (CheckCall cmd) = None
      | _ => False
      end /\ cleared_after_boot rest
  | _ :: rest => cleared_after_boot rest
  end.

Definition not_clear (c : call) : Prop :=
  match c with
  | GenerateBootScriptOverlay _ None => False
  | _ => True
  end.

Lemma not_clear_cons (c : call) (t : trace) :
  not_clear c -> cleared_after_boot t -> cleared_after_boot (c :: t).
Proof.
  destruct c as [| | | | | | | |b [s|]| | | | |]; simpl; intros Hc H;
    [exact H .. | destruct Hc | exact H | exact H | exact H | exact H | exact H].
Qed.

Ltac keeps_cleared :=
  repeat first
    [ apply preserves_ret | apply preserves_raise | apply preserves_lift
    | apply preserves_exists
    | apply (preserves_say cleared_after_boot not_clear not_clear_cons); exact I
    | apply (preserves_do W cleared_after_boot not_clear not_clear_cons); exact I
    | apply (preserves_copy_loop W cleared_after_boot not_clear not_clear_cons);
        intros; exact I
    | apply preserves_when | apply preserves_try_finally
    | apply preserves_bind; [| intros ?]
    | match goal with |- preserves _ (if ?b then _ else _) => destruct b end
    | match goal with |- preserves _ (match ?o with _ => _ end) => destruct o end ].

Lemma cleared_copyImgFiles (img : string) (files : list FileSpec) (direction : string) :
  preserves cleared_after_boot (copyImgFiles W img files direction).
Proof. unfold copyImgFiles, mount_image. keeps_cleared. Qed.

Lemma cleared_boot_then_clear (config : config) (cmd : string)
    (k : string -> M trace unit) :
  (forall o, preserves cleared_after_boot (k o)) ->
  preserves cleared_after_boot
    (bind (do W (CheckCall cmd))
       (fun _ => bind (generateBootScriptOverlay W config None) k)).
Proof.
  intros Hk t H. unfold bind at 1. unfold do at 1.
  destruct (call_fails W t (CheckCall cmd)) eqn:Hc; simpl; [exact H |].
  unfold generateBootScriptOverlay, bind, lift.
  destruct (getitem config "builder") as [[]|]; simpl; try exact H.
  unfold do. destruct (call_fails W _ (GenerateBootScriptOverlay b None)).
  - simpl. auto.
  - apply Hk. simpl. auto.
Qed.

(** X16: [makeImage] generates the overlay that clears the boot script
    only right after a boot of the image that succeeded.  When the boot
    fails, or anything before it, the image keeps the init overlay. *)
Theorem makeImage_clears_only_after_boot (config : config) (t : trace)
    (Ht : cleared_after_boot t) :
  cleared_after_boot (snd (makeImage W config t)).
Proof.
  revert t Ht. change (preserves cleared_after_boot (makeImage W config)).
  unfold makeImage.
  apply preserves_bind; [| intros _; apply preserves_bind; [| intros _]].
  - unfold makeImage_base. keeps_cleared.
  - unfold makeImage_files. keeps_cleared.
  - apply preserves_bind; [| intros _].
    + unfold makeImage_init. apply preserves_when.
      apply preserves_bind; [keeps_cleared | intros gi].
      apply preserves_bind; [keeps_cleared | intros _].
      apply preserves_bind; [keeps_cleared | intros e].
      apply preserves_bind; [keeps_cleared | intros _].
      apply preserves_bind; [unfold generateBootScriptOverlay; keeps_cleared | intros o].
      apply preserves_bind; [keeps_cleared | intros img].
      apply preserves_bind; [apply cleared_copyImgFiles | intros _].
      apply preserves_bind; [keeps_cleared | intros b].
      apply preserves_bind; [keeps_cleared | intros _].
      apply preserves_bind; [keeps_cleared | intros cmd].
      apply cleared_boot_then_clear. intros o'.
      apply preserves_bind; [keeps_cleared | intros img'].
      apply cleared_copyImgFiles.
    + unfold makeImage_run, generateBootScriptOverlay. keeps_cleared.
Qed.

End BootInvariant.

(** A world in which the boot of the image fails. *)
Definition boot_fails_world : world :=
  mkWorld "/mnt" "-j4" 1000 (fun _ => "[...]")
    (fun _ _ => true)
    (fun _ c => match c with CheckCall _ => Some CalledProcessError | _ => None end)
    (fun _ c =>
       match c with
       | GenerateBootScriptOverlay _ None => "/overlay/none"
       | GenerateBootScriptOverlay _ (Some s) => "/overlay" +:+ s
       | _ => ""
       end).

Lemma makeImage_clears_only_after_boot_witness :
  cleared_after_boot boot_fails_world (snd (makeImage boot_fails_world init_cfg [])) /\
  cleared_after_boot calm_world (snd (makeImage calm_world init_cfg [])).
Proof.
  split.
  - apply (makeImage_clears_only_after_boot boot_fails_world init_cfg []). exact I.
  - apply (makeImage_clears_only_after_boot calm_world init_cfg []). exact I.
Defined.

Example makeImage_boot_fails :
  fst (makeImage boot_fails_world init_cfg []) = Err CalledProcessError /\
  firstn 4 (snd (makeImage boot_fails_world init_cfg [])) =
    [CheckCall (match getQemuCmd init_cfg false with Ok c => c | Err _ => "" end);
     Print "Launching: test-bin";
     Run ["sudo"; "umount"; "/mnt"] None;
     RunShell "sudo rsync -a --chown=root:root /overlay/w/init.sh/* /mnt" None].
Proof. vm_compute. split; reflexivity. Qed.

Section MountInvariant.
Variable W : world.

Definition is_mount (c : call) : bool :=
  match c with
  | Run ("sudo" :: "mount" :: _) _ => true
  | _ => false
  end.

Definition is_umount (c : call) : bool :=
  match c with
  | Run ("sudo" :: "umount" :: _) _ => true
  | _ => false
  end.

(** The newest [mount] or [umount] call of the trace, if there is one,
    is a [umount], or a [mount] that failed: no mount is left without an
    attempt to undo it. *)
Fixpoint mount_closed (t : trace) : Prop :=
  match t with
  | [] => True
  | c :: rest =>
      if is_umount c then True
      else if is_mount c then call_fails W rest c <> None
      else mount_closed rest
  end.

Definition no_mount (c : call) : Prop := is_mount c = false /\ is_umount c = false.

Lemma no_mount_cons (c : call) (t : trace) :
  no_mount c -> mount_closed t -> mount_closed (c :: t).
Proof. intros [H1 H2] H. simpl. now rewrite H1, H2. Qed.

Lemma no_mount_neither (c : call) :
  match c with Run _ _ => False | _ => True end -> no_mount c.
Proof. destruct c; intros H; try destruct H; split; reflexivity. Qed.

Lemma mount_closed_copyImgFiles (img : string) (files : list FileSpec) (direction : string) :
  preserves mount_closed (copyImgFiles W img files direction).
Proof.
  intros t H.
  destruct (mount_image W img t) as [[[]|e] t1] eqn:Hm.
  - rewrite (copyImgFiles_mounted W img files direction t t1 Hm). reflexivity.
  - unfold copyImgFiles. rewrite (bind_Err _ _ _ _ _ Hm). simpl.
    revert Hm. unfold mount_image, bind, exists_, when, ret, do.
    destruct (path_exists W t (mnt W)); simpl.
    + destruct (call_fails W t (mount_cmd W img)) eqn:E; intros Hm; inversion Hm.
      simpl. rewrite E. discriminate.
    + destruct (call_fails W t (Run ["mkdir"; mnt W] None)); simpl.
      * intros Hm; inversion Hm. exact H.
      * destruct (call_fails W _ (mount_cmd W img)) eqn:E; intros Hm; inversion Hm.
        simpl. rewrite E. discriminate.
Qed.

Ltac keeps_closed :=
  repeat first
    [ apply preserves_ret | apply preserves_raise | apply preserves_lift
    | apply preserves_exists
    | apply mount_closed_copyImgFiles
    | apply (preserves_say mount_closed no_mount no_mount_cons);
        apply no_mount_neither; exact I
    | apply (preserves_do W mount_closed no_mount no_mount_cons);
        apply no_mount_neither; exact I
    | apply preserves_when | apply preserves_try_finally
    | apply preserves_bind; [| intros ?]
    | match goal with |- preserves _ (if ?b then _ else _) => destruct b end
    | match goal with |- preserves _ (match ?o with _ => _ end) => destruct o end ].

(** X17: [makeImage] never leaves the image mounted without having run
    the [umount]: if that holds of the trace before, it holds of the trace
    after, for every record and every outcome, normal or not. *)
Theorem makeImage_leaves_no_mount (config : config) (t : trace)
    (Ht : mount_closed t) :
  mount_closed (snd (makeImage W config t)).
Proof.
  revert t Ht. change (preserves mount_closed (makeImage W config)).
  unfold makeImage, makeImage_base, makeImage_files, makeImage_init, makeImage_run,
    applyOverlay, generateBootScriptOverlay.
  keeps_closed.
Qed.

End MountInvariant.

Lemma makeImage_leaves_no_mount_witness :
  mount_closed rsync_fails_world (snd (makeImage rsync_fails_world init_cfg [])).
Proof.
  apply (makeImage_leaves_no_mount rsync_fails_world init_cfg []). exact I.
Defined.

(** ** [handleHostInit] and the targets of [handleBuild] *)

Section HandleBuild.
Local Open Scope py_scope.
Variable W : world.

(** [handleHostInit(config)] *)
Definition handleHostInit (config : config) : M trace unit :=
  when (has_key "host-init" config)
    (hi <- lift (rbind (getitem config "host-init") as_str) ;;
     say (LogInfo ("Applying host-init: " +:+ hi)) ;;;
     e <- exists_ W hi ;;
     when (negb e) (raise (ValueError ("host-init script " +:+ hi +:+ " not found."))) ;;;
     wd <- lift (rbind (getitem config "workdir") as_str) ;;
     do W (Run [hi] (Some wd)) ;;; ret tt).

(** [config['jobs'].values()] and [config['jobs'][job]]; the job names
    of a dict are distinct. *)
Definition jobs_values (v : value) : result (list config) :=
  match v with
  | VJobs js => Ok (map snd js)
  | _ => Err AttributeError
  end.

Fixpoint assoc_get (js : list (string * config)) (job : string) : result config :=
  match js with
  | [] => Err (KeyError job)
  | (n, j) :: rest => if decide (n = job) then Ok j else assoc_get rest job
  end.

Definition jobs_getitem (v : value) (job : string) : result config :=
  match v with
  | VJobs js => assoc_get js job
  | _ => Err TypeError
  end.

(** What one job adds to [binList] and [imgList] (lines 226-231, and
    again 234-239). *)
Definition job_targets (jCfg : config) (lists : list value * list value)
    : M trace (list value * list value) :=
  handleHostInit jCfg ;;;
  b <- lift (getitem jCfg "bin") ;;
  let binList := fst lists ++ [b] in
  binList <-
    (if has_key "initramfs" jCfg then
       ib <- lift (rbind (getitem jCfg "bin") (fun b => add_str b "-initramfs")) ;;
       ret (binList ++ [ib])
     else ret binList) ;;
  let imgList := snd lists ++ opt_list (jCfg !! "img") in
  ret (binList, imgList).

Fixpoint for_jobs (jobs : list config) (lists : list value * list value)
    : M trace (list value * list value) :=
  match jobs with
  | [] => ret lists
  | jCfg :: rest => lists' <- job_targets jCfg lists ;; for_jobs rest lists'
  end.

(** Lines 214-240 of [handleBuild]: the host-init scripts are run and
    the list of targets handed to [doit], [binList + imgList], is put
    together.  [config] is [cfgs[args.config_file]] and [job] is
    [args.job]. *)
Definition handleBuild_targets (config : config) (job : string) : M trace (list value) :=
  handleHostInit config ;;;
  b <- lift (getitem config "bin") ;;
  let binList := [b] in
  let imgList := opt_list (config !! "img") in
  binList <-
    (if has_key "initramfs" config then
       ib <- lift (rbind (getitem config "bin") (fun b => add_str b "-initramfs")) ;;
       ret (binList ++ [ib])
     else ret binList) ;;
  lists <-
    (match config !! "jobs" with
     | Some jobs =>
         if decide (job = "all") then
           js <- lift (jobs_values jobs) ;;
           for_jobs js (binList, imgList)
         else
           jCfg <- lift (jobs_getitem jobs job) ;;
           job_targets jCfg (binList, imgList)
     | None => ret (binList, imgList)
     end) ;;
  ret (fst lists ++ snd lists).

End HandleBuild.

Section HandleBuildFacts.
Variable W : world.

(** X18: [handleHostInit] runs at most one command: the [host-init]
    script of the record, in the record's [workdir], and only after it has
    found that the script exists.  Otherwise it makes no call but the log
    line. *)
Theorem handleHostInit_runs_existing_script (config : config) (t : trace) :
  snd (handleHostInit W config t) = t \/
  exists hi,
    config !! "host-init" = Some (VStr hi) /\
    let logged := LogInfo ("Applying host-init: " +:+ hi) :: t in
    snd (handleHostInit W config t) = logged \/
    exists wd,
      config !! "workdir" = Some (VStr wd) /\
      path_exists W logged hi = true /\
      snd (handleHostInit W config t) = Run [hi] (Some wd) :: logged.
Proof.
  unfold handleHostInit, when, has_key, getitem.
  destruct (config !! "host-init") as [[hi| | | | |]|]; try (left; reflexivity).
  right. exists hi. split; [reflexivity |]. cbv zeta.
  unfold bind, lift, say, exists_. simpl.
  destruct (path_exists W _ hi) eqn:He; simpl; [| left; reflexivity].
  destruct (config !! "workdir") as [[wd| | | | |]|]; simpl; try (left; reflexivity).
  right. exists wd. split; [reflexivity |]. split; [reflexivity |].
  unfold do. destruct (call_fails W _ _); reflexivity.
Qed.

(** The binaries a record asks for: [bin], and [bin + "-initramfs"] when
    flagged. *)
Definition bins_of (c : config) : result (list value) :=
  rbind (getitem c "bin") (fun b =>
  if has_key "initramfs" c then
    rbind (rbind (getitem c "bin") (fun b => add_str b "-initramfs")) (fun ib =>
    Ok [b; ib])
  else Ok [b]).

Lemma job_targets_inv (j : config) (lists lists' : list value * list value)
    (t t' : trace) :
  job_targets W j lists t = (Ok lists', t') ->
  exists bs,
    bins_of j = Ok bs /\
    lists' = (fst lists ++ bs, snd lists ++ opt_list (j !! "img")).
Proof.
  intros H. unfold job_targets in H.
  step_bind H as u Hm at s. clear Hm.
  step_bind H as b Hm at s1. step_lift Hm as Eb.
  unfold bins_of. rewrite Eb. simpl.
  destruct (has_key "initramfs" j).
  - step_bind H as bl Hm at s2. step_bind Hm as ib Hi at s3. step_lift Hi as Ei.
    rewrite Eb in Ei. simpl in Ei. rewrite Ei. simpl.
    inversion Hm; subst. inversion H; subst.
    eexists. split; [reflexivity |]. now rewrite <- app_assoc.
  - step_bind H as bl Hm at s2. inversion Hm; subst. inversion H; subst.
    eexists. split; reflexivity.
Qed.

Lemma for_jobs_inv (js : list config) (lists lists' : list value * list value)
    (t t' : trace) :
  for_jobs W js lists t = (Ok lists', t') ->
  exists bss,
    Forall2 (fun j bs => bins_of j = Ok bs) js bss /\
    lists' = (fst lists ++ List.concat bss,
              snd lists ++ flat_map (fun j => opt_list (j !! "img")) js).
Proof.
  revert lists t. induction js as [|j js IH]; intros lists t H; simpl in H.
  - inversion H; subst. exists []. split; [constructor |].
    simpl. rewrite !app_nil_r. now destruct lists'.
  - step_bind H as l1 Hm at s. apply job_targets_inv in Hm as (bs & Ebs & ->).
    apply IH in H as (bss & F & ->). exists (bs :: bss).
    split; [constructor; assumption |]. simpl. now rewrite <- !app_assoc.
Qed.

Lemma assoc_get_In (js : list (string * config)) (job : string) (j : config) :
  assoc_get js job = Ok j -> In j (map snd js).
Proof.
  induction js as [|[n c] js IH]; simpl; [discriminate |].
  destruct (decide (n = job)); intros H; [inversion H; now left | right; auto].
Qed.

(** The records whose artifacts a build asks for: the record itself and
    the selected jobs. *)
Lemma handleBuild_targets_inv (config : config) (job : string) (tgts : list value)
    (t t' : trace) :
  handleBuild_targets W config job t = (Ok tgts, t') ->
  exists bs sel bss,
    bins_of config = Ok bs /\
    Forall (fun j => In j (jobs_of config)) sel /\
    Forall2 (fun j bs => bins_of j = Ok bs) sel bss /\
    tgts = (bs ++ List.concat bss)
             ++ opt_list (config !! "img")
             ++ flat_map (fun j => opt_list (j !! "img")) sel.
Proof.
  intros H. unfold handleBuild_targets in H.
  step_bind H as u Hm at s. clear Hm.
  step_bind H as b Hm at s1. step_lift Hm as Eb.
  step_bind H as bl Hm at s2.
  assert (Ebs : bins_of config = Ok bl).
  { unfold bins_of. rewrite Eb. simpl. destruct (has_key "initramfs" config).
    - step_bind Hm as ib Hi at s3. step_lift Hi as Ei.
      rewrite Eb in Ei. simpl in Ei. rewrite Ei. inversion Hm. reflexivity.
    - inversion Hm. reflexivity. }
  clear Hm. exists bl.
  step_bind H as lists Hm at s3. inversion H; subst; clear H.
  unfold jobs_of. destruct (config !! "jobs") as [jobs|].
  - destruct (decide (job = "all")).
    + step_bind Hm as js Hj at s4. step_lift Hj as Ej.
      destruct jobs; try discriminate Ej. simpl in Ej. inversion Ej; subst.
      apply for_jobs_inv in Hm as (bss & F & ->). simpl.
      exists (map snd js0), bss. split; [exact Ebs |].
      split; [apply List.Forall_forall; auto |]. split; [exact F | reflexivity].
    + step_bind Hm as jCfg Hj at s4. step_lift Hj as Ej.
      destruct jobs; try discriminate Ej. simpl in Ej.
      apply assoc_get_In in Ej.
      apply job_targets_inv in Hm as (bs & Ebj & ->). simpl.
      exists [jCfg], [bs]. split; [exact Ebs |].
      split; [repeat constructor; exact Ej |].
      split; [repeat constructor; exact Ebj |].
      simpl. now rewrite !app_nil_r.
  - inversion Hm; subst. exists [], []. simpl.
    split; [exact Ebs |]. split; [constructor |]. split; [constructor |].
    now rewrite !app_nil_r.
Qed.

End HandleBuildFacts.

(** ** [buildDepGraph] *)

(** The dicts of [loader.workloads]: the base-image rule of a
    distribution, built by its builder object, and the rules of [addDep]. *)
Inductive workload :=
| BaseImageRule (img : value) (builder : string)
| ConfigRule (r : rule).

Definition workload_name (w : workload) : value :=
  match w with
  | BaseImageRule img _ => img
  | ConfigRule r => name r
  end.

Section BuildDepGraph.
Local Open Scope py_scope.
Variable fs : filesys.

(** [cfgs[path]]: the configuration manager of [util.config] is a
    mapping from configuration paths to records. *)
Definition cfgs_getitem (cfgs : gmap string config) (p : string) : result config :=
  match cfgs !! p with
  | Some c => Ok c
  | None => Err (KeyError p)
  end.

(** [dCfg['builder'].buildBaseImage] and [dCfg['builder'].upToDate] *)
Definition builder_of (dCfg : config) : result string :=
  rbind (getitem dCfg "builder") (fun b =>
  match b with
  | VBuilder b => Ok b
  | _ => Err AttributeError
  end).

(** [addDep] on a loader that also holds base-image rules.  [addDep]
    appends, and what it appends does not depend on what the loader holds
    ([addDep_appends]). *)
Definition addDep_loader (config : config) : M (list workload) unit :=
  fun ws =>
    (fst (addDep fs config []), ws ++ map ConfigRule (snd (addDep fs config []))).

Definition add_distro (cfgs : gmap string config) (d : string) : M (list workload) unit :=
  dCfg <- lift (cfgs_getitem cfgs d) ;;
  match dCfg !! "img" with
  | Some img =>
      b <- lift (builder_of dCfg) ;;
      b' <- lift (builder_of dCfg) ;;
      (fun ws => (Ok tt, ws ++ [BaseImageRule img b]))
  | None => ret tt
  end.

Definition add_config (cfgs : gmap string config) (cfgPath : string)
    : M (list workload) unit :=
  config <- lift (cfgs_getitem cfgs cfgPath) ;;
  addDep_loader config ;;;
  match config !! "jobs" with
  | Some jobs =>
      js <- lift (jobs_values jobs) ;;
      for_each js addDep_loader
  | None => ret tt
  end.

(** [buildDepGraph(cfgs)].  [distros] is the list of [util.config];
    [order] is the order in which the set [set(cfgs.keys()) - set(distros)]
    is iterated.  The state is [loader.workloads]. *)
Definition buildDepGraph (distros order : list string) (cfgs : gmap string config)
    : M (list workload) unit :=
  for_each distros (add_distro cfgs) ;;;
  for_each order (add_config cfgs).

End BuildDepGraph.

Section BuildDepGraphFacts.
Variable fs : filesys.

(** A computation on the loader that keeps what it finds and adds at
    the end. *)
Definition grows (m : M (list workload) unit) : Prop :=
  forall ws, exists new, snd (m ws) = ws ++ new.

Lemma grows_ret : grows (ret tt).
Proof. intros ws. exists []. simpl. now rewrite app_nil_r. Qed.

Lemma grows_lift {A} (x : result A) (k : A -> M (list workload) unit) :
  (forall a, grows (k a)) -> grows (bind (lift x) k).
Proof.
  intros Hk ws. unfold bind, lift. destruct x as [a|e]; [apply Hk |].
  exists []. simpl. now rewrite app_nil_r.
Qed.

Lemma grows_seq (m k : M (list workload) unit) :
  grows m -> grows k -> grows (bind m (fun _ => k)).
Proof.
  intros Hm Hk ws. unfold bind. destruct (Hm ws) as [n1 E1].
  destruct (m ws) as [[u|e] w1]; simpl in E1; subst w1.
  - destruct (Hk (ws ++ n1)) as [n2 E2]. exists (n1 ++ n2). now rewrite E2, app_assoc.
  - now exists n1.
Qed.

Lemma grows_for_each {A} (xs : list A) (body : A -> M (list workload) unit) :
  (forall x, grows (body x)) -> grows (for_each xs body).
Proof.
  intros Hb. induction xs as [|x xs IH]; simpl; [apply grows_ret |].
  apply grows_seq; [apply Hb | exact IH].
Qed.

Lemma grows_addDep_loader (c : config) : grows (addDep_loader fs c).
Proof. intros ws. eexists. reflexivity. Qed.

Lemma grows_add_config (cfgs : gmap string config) (p : string) :
  grows (add_config fs cfgs p).
Proof.
  unfold add_config. apply grows_lift. intros c.
  apply grows_seq; [apply grows_addDep_loader |].
  destruct (c !! "jobs"); [| apply grows_ret].
  apply grows_lift. intros js. apply grows_for_each, grows_addDep_loader.
Qed.

Lemma grows_add_distro (cfgs : gmap string config) (d : string) :
  grows (add_distro cfgs d).
Proof.
  unfold add_distro. apply grows_lift. intros c.
  destruct (c !! "img"); [| apply grows_ret].
  apply grows_lift. intros b. apply grows_lift. intros b'.
  intros ws. eexists. reflexivity.
Qed.

(** The records that get rules when [c] is visited. *)
Definition visited (c c' : config) : Prop := c' = c \/ In c' (jobs_of c).

Lemma for_each_addDep_loader_Ok (js : list config) (ws ws' : list workload) (c' : config) :
  for_each js (addDep_loader fs) ws = (Ok tt, ws') ->
  In c' js ->
  fst (addDep fs c' []) = Ok tt /\
  forall r, In r (snd (addDep fs c' [])) -> In (ConfigRule r) ws'.
Proof.
  revert ws. induction js as [|j js IH]; intros ws H Hin; [destruct Hin |].
  simpl in H. unfold bind in H.
  destruct (addDep_loader fs j ws) as [[[]|e] w1] eqn:E; [| discriminate H].
  unfold addDep_loader in E. injection E as Hr Hw.
  destruct (grows_for_each js _ grows_addDep_loader w1) as [n Hn].
  rewrite H in Hn. simpl in Hn.
  destruct Hin as [<-|Hin]; [| now apply (IH w1)].
  split; [exact Hr |]. intros r Hr'. subst ws' w1.
  apply in_app_iff. left. apply in_app_iff. right. now apply in_map.
Qed.

Lemma add_config_Ok (cfgs : gmap string config) (p : string) (c c' : config)
    (ws ws' : list workload) :
  add_config fs cfgs p ws = (Ok tt, ws') ->
  cfgs !! p = Some c ->
  visited c c' ->
  fst (addDep fs c' []) = Ok tt /\
  forall r, In r (snd (addDep fs c' [])) -> In (ConfigRule r) ws'.
Proof.
  intros H Hc Hv. unfold add_config, cfgs_getitem in H. rewrite Hc in H.
  unfold bind at 1 in H. unfold lift at 1 in H.
  unfold bind at 1 in H.
  destruct (addDep_loader fs c ws) as [[[]|e] w1] eqn:E; [| discriminate H].
  unfold addDep_loader in E. injection E as Hr Hw.
  unfold visited, jobs_of in Hv.
  destruct (c !! "jobs") as [jobs|].
  - unfold bind, lift in H.
    destruct (jobs_values jobs) as [js|e] eqn:Ej; [| discriminate H].
    destruct Hv as [->|Hv].
    + split; [exact Hr |]. intros r Hr'.
      destruct (grows_for_each js _ grows_addDep_loader w1) as [n Hn].
      rewrite H in Hn. simpl in Hn. subst ws' w1.
      apply in_app_iff. left. apply in_app_iff. right. now apply in_map.
    + destruct jobs; try discriminate Ej. simpl in Ej. inversion Ej; subst js.
      now apply (for_each_addDep_loader_Ok _ w1 ws' c' H).
  - destruct Hv as [->|[]]. inversion H; subst.
    split; [exact Hr |]. intros r Hr'. apply in_app_iff. right. now apply in_map.
Qed.

Lemma for_each_add_config_Ok (cfgs : gmap string config) (order : list string)
    (p : string) (c c' : config) (ws ws' : list workload) :
  for_each order (add_config fs cfgs) ws = (Ok tt, ws') ->
  In p order ->
  cfgs !! p = Some c ->
  visited c c' ->
  fst (addDep fs c' []) = Ok tt /\
  forall r, In r (snd (addDep fs c' [])) -> In (ConfigRule r) ws'.
Proof.
  revert ws. induction order as [|q order IH]; intros ws H Hin Hc Hv; [destruct Hin |].
  simpl in H. unfold bind in H.
  destruct (add_config fs cfgs q ws) as [[[]|e] w1] eqn:E; [| discriminate H].
  destruct Hin as [->|Hin]; [| now apply (IH w1)].
  destruct (add_config_Ok cfgs p c c' ws w1 E Hc Hv) as [Hr Hrules].
  split; [exact Hr |]. intros r Hr'.
  destruct (grows_for_each order _ (grows_add_config cfgs) w1) as [n Hn].
  rewrite H in Hn. simpl in Hn. subst ws'. apply in_app_iff. left. auto.
Qed.

(** X20: in a dependency graph that was built, nothing the loader held
    is lost, and every record that is not a distribution has all the rules
    of [addDep], and so has each of its jobs. *)
Theorem buildDepGraph_has_rules (distros order : list string)
    (cfgs : gmap string config) (ws ws' : list workload)
    (p : string) (c c' : config) (r : rule)
    (Hok : buildDepGraph fs distros order cfgs ws = (Ok tt, ws'))
    (Hp : In p order)
    (Hc : cfgs !! p = Some c)
    (Hv : c' = c \/ In c' (jobs_of c))
    (Hr : In r (snd (addDep fs c' []))) :
  In (ConfigRule r) ws' /\ exists new, ws' = ws ++ new.
Proof.
  split.
  - unfold buildDepGraph in Hok. apply bind_inv_Ok in Hok as (u & w1 & _ & Hok).
    now apply (for_each_add_config_Ok cfgs order p c c' w1 ws' Hok Hp Hc Hv).
  - assert (G : grows (buildDepGraph fs distros order cfgs)).
    { unfold buildDepGraph. apply grows_seq; apply grows_for_each;
        [apply grows_add_distro | apply grows_add_config]. }
    destruct (G ws) as [new Hn]. rewrite Hok in Hn. eauto.
Qed.

(** X21: the graph is built for every record of the workload directory
    or not at all: when [addDep] fails for one record that is not a
    distribution, or for one of its jobs, [buildDepGraph] fails, whichever
    record the build was asked for. *)
Theorem buildDepGraph_fails_with_one_record (distros order : list string)
    (cfgs : gmap string config) (ws : list workload)
    (p : string) (c c' : config) (e : exn)
    (Hp : In p order)
    (Hc : cfgs !! p = Some c)
    (Hv : c' = c \/ In c' (jobs_of c))
    (He : fst (addDep fs c' []) = Err e) :
  exists e', fst (buildDepGraph fs distros order cfgs ws) = Err e'.
Proof.
  destruct (buildDepGraph fs distros order cfgs ws) as [[[]|e'] ws'] eqn:E; [| eauto].
  unfold buildDepGraph in E. apply bind_inv_Ok in E as (u & w1 & _ & E).
  destruct (for_each_add_config_Ok cfgs order p c c' w1 ws' E Hp Hc Hv) as [Hr _].
  rewrite Hr in He. discriminate He.
Qed.

End BuildDepGraphFacts.

(** A workload directory with a buildroot distribution, the workload
    above, and a record that asks for an initramfs without an image. *)
Definition distro_cfg : config :=
  <["builder" := VBuilder "br"]> (<["img" := VStr "br-base.img"]> ∅).

Definition small_catalog : gmap string config :=
  <["br-base.json" := distro_cfg]> (<["w.json" := workload_cfg]> ∅).

Definition broken_catalog : gmap string config :=
  <["bare.json" := bare_initramfs_cfg]> small_catalog.

Lemma buildDepGraph_has_rules_witness :
  In (ConfigRule (bin_rule bare_job (VStr "w-j1-bin")))
     (snd (buildDepGraph no_files ["br-base.json"] ["w.json"] small_catalog [])).
Proof.
  apply (buildDepGraph_has_rules no_files ["br-base.json"] ["w.json"] small_catalog []
           (snd (buildDepGraph no_files ["br-base.json"] ["w.json"] small_catalog []))
           "w.json" workload_cfg bare_job (bin_rule bare_job (VStr "w-j1-bin"))).
  - reflexivity.
  - left. reflexivity.
  - reflexivity.
  - right. right. left. reflexivity.
  - left. reflexivity.
Defined.

Lemma buildDepGraph_fails_with_one_record_witness :
  exists e',
    fst (buildDepGraph no_files ["br-base.json"] ["w.json"; "bare.json"] broken_catalog [])
      = Err e'.
Proof.
  apply (buildDepGraph_fails_with_one_record no_files ["br-base.json"]
           ["w.json"; "bare.json"] broken_catalog []
           "bare.json" bare_initramfs_cfg bare_initramfs_cfg (KeyError "img")).
  - right. left. reflexivity.
  - reflexivity.
  - left. reflexivity.
  - reflexivity.
Defined.

Example buildDepGraph_small_catalog :
  map workload_name
    (snd (buildDepGraph no_files ["br-base.json"] ["w.json"] small_catalog [])) =
  [VStr "br-base.img"; VStr "w-bin"; VStr "w.img"; VStr "w-j0-bin"; VStr "w-j0.img";
   VStr "w-j1-bin"].
Proof. vm_compute. reflexivity. Qed.

(** ** The targets of a build are in the graph *)

(** When [addDep] succeeds, the names of its rules are the binaries
    [handleBuild] asks for, followed by the image. *)
Lemma addDep_Ok_names (fs : filesys) (c : config) :
  fst (addDep fs c []) = Ok tt ->
  exists bs,
    bins_of c = Ok bs /\
    map name (snd (addDep fs c [])) = bs ++ opt_list (c !! "img").
Proof.
  unfold addDep, addDep_bin, addDep_initramfs, addDep_img, bins_of,
    bind, lift, getitem, has_key, append_rule, ret.
  destruct (c !! "bin") as [bv|]; simpl; [| discriminate].
  destruct (c !! "initramfs"); simpl.
  - destruct (c !! "img") as [img|]; simpl; [| discriminate].
    destruct bv; simpl; try discriminate.
    destruct (image_deps fs c); simpl; [| discriminate].
    intros _. eexists. split; reflexivity.
  - destruct (c !! "img") as [img|]; simpl.
    + destruct (image_deps fs c); simpl; [| discriminate].
      intros _. eexists. split; reflexivity.
    + intros _. eexists. split; reflexivity.
Qed.

(** X19: a build never asks for an artifact that has no rule.  When
    the graph of [buildDepGraph] was built and the record the build is
    asked for is not a distribution, every target that [handleBuild] puts
    into [binList + imgList], for all jobs or for one, is the name of a
    rule of that graph. *)
Theorem handleBuild_targets_have_rules (W : world) (fs : filesys)
    (distros order : list string) (cfgs : gmap string config)
    (ws ws' : list workload) (p : string) (config : config) (job : string)
    (tgts : list value) (t t' : trace) (x : value)
    (Hgraph : buildDepGraph fs distros order cfgs ws = (Ok tt, ws'))
    (Hp : In p order)
    (Hc : cfgs !! p = Some config)
    (Hok : handleBuild_targets W config job t = (Ok tgts, t'))
    (Hx : In x tgts) :
  exists w, In w ws' /\ workload_name w = x.
Proof.
  unfold buildDepGraph in Hgraph.
  apply bind_inv_Ok in Hgraph as (u & w1 & _ & Hgraph).
  assert (Hrule : forall c' bs v,
            c' = config \/ In c' (jobs_of config) ->
            bins_of c' = Ok bs ->
            In v bs \/ In v (opt_list (c' !! "img")) ->
            exists w, In w ws' /\ workload_name w = v).
  { intros c' bs v Hv Ebs Hin.
    destruct (for_each_add_config_Ok fs cfgs order p config c' w1 ws' Hgraph Hp Hc Hv)
      as [Hr Hrules].
    destruct (addDep_Ok_names fs c' Hr) as (bs' & Ebs' & Hn).
    rewrite Ebs in Ebs'. inversion Ebs'; subst bs'.
    assert (Hin' : In v (map name (snd (addDep fs c' [])))).
    { rewrite Hn. apply in_app_iff. exact Hin. }
    apply in_map_iff in Hin' as (r & Hname & Hr').
    exists (ConfigRule r). split; [now apply Hrules | exact Hname]. }
  apply (handleBuild_targets_inv W) in Hok as (bs & sel & bss & Ebs & Hsel & Hbss & ->).
  rewrite List.Forall_forall in Hsel.
  rewrite !in_app_iff in Hx. destruct Hx as [[Hx|Hx]|[Hx|Hx]].
  - apply (Hrule config bs x); auto.
  - apply in_concat in Hx as (bsj & Hb & Hx).
    apply list_elem_of_In, list_elem_of_lookup in Hb as [i Hi].
    destruct (Forall2_lookup_r _ _ _ _ _ Hbss Hi) as (j & Hj & Ej).
    apply (Hrule j bsj x); auto.
    right. apply Hsel, list_elem_of_In, list_elem_of_lookup. eauto.
  - apply (Hrule config bs x); auto.
  - apply in_flat_map in Hx as (j & Hj & Hx).
    pose proof (Hsel j Hj) as Hjob.
    apply list_elem_of_In, list_elem_of_lookup in Hj as [i Hi].
    destruct (Forall2_lookup_l _ _ _ _ _ Hbss Hi) as (bsj & _ & Ej).
    apply (Hrule j bsj x); auto.
Qed.

Lemma handleBuild_targets_have_rules_witness :
  handleBuild_targets calm_world workload_cfg "all" [] =
    (Ok [VStr "w-bin"; VStr "w-j0-bin"; VStr "w-j1-bin"; VStr "w.img"; VStr "w-j0.img"], []) /\
  exists w,
    In w (snd (buildDepGraph no_files ["br-base.json"] ["w.json"] small_catalog [])) /\
    workload_name w = VStr "w-j0.img".
Proof.
  split; [reflexivity |].
  apply (handleBuild_targets_have_rules calm_world no_files ["br-base.json"] ["w.json"]
           small_catalog []
           (snd (buildDepGraph no_files ["br-base.json"] ["w.json"] small_catalog []))
           "w.json" workload_cfg "all"
           [VStr "w-bin"; VStr "w-j0-bin"; VStr "w-j1-bin"; VStr "w.img"; VStr "w-j0.img"]
           [] [] (VStr "w-j0.img")).
  - reflexivity.
  - left. reflexivity.
  - reflexivity.
  - reflexivity.
  - do 4 right. left. reflexivity.
Defined.

(** A distribution record is not visited by [addDep]: its binary, which
    [handleBuild] would ask for, has no rule in the graph. *)
Example distro_bin_has_no_rule :
  fst (handleBuild_targets calm_world (<["bin" := VStr "br-base-bin"]> distro_cfg) "all" [])
    = Ok [VStr "br-base-bin"; VStr "br-base.img"] /\
  map workload_name
    (snd (buildDepGraph no_files ["br-base.json"] []
            (<["br-base.json" := <["bin" := VStr "br-base-bin"]> distro_cfg]> ∅) []))
    = [VStr "br-base.img"].
Proof. vm_compute. split; reflexivity. Qed.

(** ** Destinations that climb out of the mount point *)

Module PathEscape.
Import Path PathFacts.

Lemma norm_comps_dotdot (acc rest : list string) :
  Forall (fun c => plain c = true) acc ->
  norm_comps 1 (repeat ".." (List.length acc) ++ rest) acc = norm_comps 1 rest [].
Proof.
  induction acc as [|last others IH]; intros Hall; [reflexivity |].
  inversion Hall as [|? ? Hl Ho]; subst.
  apply plain_inv in Hl as (_ & _ & _ & Hdd).
  change (norm_comps 1 (repeat ".." (List.length (last :: others)) ++ rest) (last :: others))
    with (if decide (last = "..")
          then norm_comps 1 (repeat ".." (List.length others) ++ rest) (".." :: last :: others)
          else norm_comps 1 (repeat ".." (List.length others) ++ rest) others).
  destruct (decide (last = "..")); [contradiction | now apply IH].
Qed.

Lemma no_slash_dotdot (n : nat) :
  Forall (fun c => no_slash c = true) (repeat ".." n).
Proof. induction n; simpl; constructor; [reflexivity | assumption]. Qed.

(** X22: [normpath(mnt + dst)] does not confine a copy to the image: a
    destination that starts with as many [..] components as the mount
    point has components lands on the host path that follows them. *)
Theorem in_mount_escapes (W : world) (cs1 cs2 : list string)
    (Hmnt : mnt W = abs_path cs1)
    (Hne : cs1 <> [])
    (H1 : Forall (fun c => plain c = true) cs1)
    (H2 : Forall (fun c => plain c = true) cs2) :
  in_mount W (abs_path (repeat ".." (List.length cs1) ++ cs2)) = abs_path cs2.
Proof.
  unfold in_mount. rewrite Hmnt.
  set (l := repeat ".." (List.length cs1) ++ cs2).
  assert (Hl : l <> []).
  { unfold l. destruct cs1; [contradiction | discriminate]. }
  assert (Hns : Forall (fun c => no_slash c = true) l).
  { unfold l. apply Forall_app. split; [apply no_slash_dotdot | now apply plain_no_slash]. }
  assert (Hshape : abs_path cs1 +:+ abs_path l
                   = String slash (join_slash cs1 +:+ String slash (join_slash l)))
    by reflexivity.
  assert (Hini : initial_slashes (abs_path cs1 +:+ abs_path l) = 1).
  { rewrite Hshape. destruct cs1 as [|c cs1]; [contradiction |].
    inversion H1 as [|? ? Hc _]; subst.
    apply plain_inv in Hc as (Hs & Hc & _).
    destruct c as [|x c]; [contradiction |].
    simpl in Hs. destruct (decide (x = slash)) as [|Hx]; [discriminate |].
    destruct cs1; [| rewrite join_slash_cons]; now apply initial_slashes_one. }
  assert (Hsplit : norm_comps 1 (split (abs_path cs1 +:+ abs_path l)) [] = cs2).
  { rewrite Hshape.
    change (split (String slash (join_slash cs1 +:+ String slash (join_slash l))))
      with ("" :: split (join_slash cs1 +:+ String slash (join_slash l))).
    rewrite (split_components cs1 _ Hne (plain_no_slash _ H1)).
    rewrite (split_join_slash l Hl Hns).
    change (norm_comps 1 ("" :: cs1 ++ l) []) with (norm_comps 1 (cs1 ++ l) []).
    rewrite (norm_comps_plain 1 cs1 l [] H1). rewrite app_nil_r.
    unfold l. rewrite <- (List.length_rev cs1).
    rewrite norm_comps_dotdot by (apply Forall_rev; exact H1).
    rewrite <- (app_nil_r cs2) at 1.
    rewrite (norm_comps_plain 1 cs2 [] [] H2).
    change (norm_comps 1 [] ?a) with (rev a).
    now rewrite app_nil_r, rev_involutive. }
  unfold normpath. rewrite Hini, Hsplit.
  destruct (decide (abs_path cs1 +:+ abs_path l = "")) as [E|_];
    [rewrite Hshape in E; discriminate E |].
  destruct (decide (slashes 1 +:+ join_slash cs2 = "")) as [E|_];
    [discriminate E | reflexivity].
Qed.

End PathEscape.

Lemma in_mount_escapes_witness :
  in_mount calm_world "/../etc/passwd" = "/etc/passwd".
Proof.
  apply (PathEscape.in_mount_escapes calm_world ["mnt"] ["etc"; "passwd"] eq_refl);
    [discriminate | repeat constructor | repeat constructor].
Defined.

(** ** The phases of [makeImage] *)

Section Phases.
Variable W : world.

(** What each phase of a successful [makeImage] adds to the trace. *)
Definition phase_base (config : config) (t0 t1 : trace) : Prop :=
  match config !! "base-img" with
  | None => t1 = t0
  | Some v =>
      exists s i,
        v = VStr s /\ config !! "img" = Some (VStr i) /\
        t1 = ShutilCopy s i :: t0
  end.

Definition phase_files (config : config) (t1 t2 : trace) : Prop :=
  match config !! "files" with
  | None => t2 = t1
  | Some v =>
      exists l i mk,
        iter_files v = Ok l /\ config !! "img" = Some (VStr i) /\
        mkdir_or_not W mk /\
        t2 = umount_cmd W :: rev (map (rsync_in W) l)
               ++ mount_cmd W i :: mk
               ++ LogInfo ("Applying file list: " +:+ str_files W v) :: t1
  end.

Definition phase_init (config : config) (t2 t3 : trace) : Prop :=
  match config !! "guest-init" with
  | None => t3 = t2
  | Some v =>
      exists b img bin gi cmd mk1 mk2,
        v = VStr gi /\ getQemuCmd config false = Ok cmd /\
        config !! "bin" = Some (VStr bin) /\
        mkdir_or_not W mk1 /\ mkdir_or_not W mk2 /\
        t3 = boot_action_set W b img None mk2
               (CheckCall cmd :: Print ("Launching: " +:+ bin)
                  :: boot_action_set W b img (Some gi) mk1
                       (LogInfo ("Applying init script: " +:+ gi) :: t2))
  end.

Definition phase_run (config : config) (t3 t : trace) : Prop :=
  match config !! "runSpec" with
  | None => t = t3
  | Some rs =>
      exists spec b img script mid mk,
        rs = VRunSpec spec /\ run_script_resolved W spec script mid t3 /\
        mkdir_or_not W mk /\
        t = boot_action_set W b img (Some script) mk (mid ++ t3)
  end.

Lemma copy_in_inv (img : string) (files : list FileSpec) (t t' : trace) :
  copyImgFiles W img files "in" t = (Ok tt, t') ->
  exists mk,
    mkdir_or_not W mk /\
    t' = umount_cmd W :: rev (map (rsync_in W) files) ++ mount_cmd W img :: mk ++ t.
Proof.
  intros Hok.
  destruct (mount_image W img t) as [[[]|e] t1] eqn:Hm.
  - rewrite (copyImgFiles_mounted W img files "in" t t1 Hm) in Hok.
    destruct (mount_image_inv W img t t1 Hm) as (mk & -> & Hmk & _).
    exists mk. split; [exact Hmk |].
    destruct (for_each files (copy_one W "in") _) as [rb tb] eqn:Hloop.
    simpl in Hok. destruct (call_fails W tb (umount_cmd W)); [discriminate Hok |].
    inversion Hok; subst.
    apply (for_each_copy_Ok W "in" files _ _ (or_introl eq_refl)) in Hloop.
    now subst tb.
  - unfold copyImgFiles in Hok. rewrite (bind_Err _ _ _ _ _ Hm) in Hok. discriminate Hok.
Qed.

Lemma makeImage_base_inv (config : config) (t0 t1 : trace) :
  makeImage_base W config t0 = (Ok tt, t1) -> phase_base config t0 t1.
Proof.
  unfold makeImage_base, phase_base, when, has_key, getitem.
  destruct (config !! "base-img") as [v|]; [| intros H; now inversion H].
  intros H. step_bind H as s Hm at t'. step_lift Hm as Es.
  destruct v; try discriminate Es. inversion Es; subst.
  step_bind H as i Hm at t'. step_lift Hm as Ei.
  change (rbind (getitem config "img") as_str = Ok i) in Ei. apply get_str_inv in Ei.
  step_bind H as x Hm at t'. apply do_inv_Ok in Hm as (-> & _ & _).
  inversion H; subst. eauto.
Qed.

Lemma makeImage_files_inv (config : config) (t1 t2 : trace) :
  makeImage_files W config t1 = (Ok tt, t2) -> phase_files config t1 t2.
Proof.
  unfold makeImage_files, phase_files, when, has_key, getitem.
  destruct (config !! "files") as [v|]; [| intros H; now inversion H].
  intros H. step_bind H as fl Hm at t'. step_lift Hm as Ef. inversion Ef; subst.
  step_bind H as u Hm at t'. apply say_inv in Hm; subst.
  step_bind H as i Hm at t'. step_lift Hm as Ei.
  change (rbind (getitem config "img") as_str = Ok i) in Ei. apply get_str_inv in Ei.
  step_bind H as l Hm at t'. step_lift Hm as El. simpl in El.
  apply copy_in_inv in H as (mk & Hmk & ->).
  exists l, i, mk. auto.
Qed.

(** X23: a [makeImage] that returns normally has gone through its
    phases in this order, each adding its calls on top of the previous
    one: copy of the base image, copy of the files (one mount, every file
    in list order, one unmount), the guest-init boot sequence, the run
    script overlay; a phase whose field is absent adds nothing. *)
Theorem makeImage_phases (config : config) (t0 t : trace)
    (Hok : makeImage W config t0 = (Ok tt, t)) :
  exists t1 t2 t3,
    phase_base config t0 t1 /\ phase_files config t1 t2 /\
    phase_init config t2 t3 /\ phase_run config t3 t.
Proof.
  unfold makeImage in Hok.
  step_bind Hok as u1 Hb at t1. step_bind Hok as u2 Hf at t2.
  step_bind Hok as u3 Hi at t3. destruct u1, u2, u3.
  exists t1, t2, t3.
  split; [now apply makeImage_base_inv |]. split; [now apply makeImage_files_inv |].
  split.
  - unfold phase_init. destruct (config !! "guest-init") as [v|] eqn:Eg.
    + destruct (makeImage_init_inv W config t2 t3 (ex_intro _ v Eg) Hi)
        as (b & img & bin & gi & cmd & mk1 & mk2 & Egi & _ & _ & Ebin & Ecmd & H1 & H2 & ->).
      exists b, img, bin, gi, cmd, mk1, mk2.
      rewrite Eg in Egi. inversion Egi; subst. auto 10.
    + unfold makeImage_init, when, has_key in Hi. rewrite Eg in Hi. now inversion Hi.
  - unfold phase_run. destruct (config !! "runSpec") as [rs|] eqn:Er.
    + destruct (makeImage_run_inv W config rs t3 t Er Hok)
        as (spec & b & img & script & mid & mk & -> & _ & _ & Hres & Hmk & ->).
      exists spec, b, img, script, mid, mk. auto.
    + rewrite (makeImage_run_absent W config t3 Er) in Hok. now inversion Hok.
Qed.

End Phases.

(** The scenario of a layered image: a base image and one file. *)
Definition motd_cfg : config :=
  <["files" := VFiles [mkFileSpec "/host/etc/motd" "/etc/motd"]]>
    (<["base-img" := VStr "base.img"]>
       (<["img" := VStr "test.img"]> (<["bin" := VStr "test.bin"]> ∅))).

Lemma makeImage_phases_witness :
  exists mk,
    snd (makeImage calm_world motd_cfg []) =
    umount_cmd calm_world
      :: [RunShell "sudo rsync -a --chown=root:root /host/etc/motd /mnt/etc/motd" None]
      ++ mount_cmd calm_world "test.img" :: mk
      ++ [LogInfo "Applying file list: [...]"; ShutilCopy "base.img" "test.img"].
Proof.
  destruct (makeImage_phases calm_world motd_cfg []
              (snd (makeImage calm_world motd_cfg [])) eq_refl)
    as (t1 & t2 & t3 & Hb & Hf & Hi & Hr).
  unfold phase_base in Hb. unfold phase_files in Hf.
  unfold phase_init in Hi. unfold phase_run in Hr.
  change (motd_cfg !! "base-img") with (Some (VStr "base.img")) in Hb.
  change (motd_cfg !! "files")
    with (Some (VFiles [mkFileSpec "/host/etc/motd" "/etc/motd"])) in Hf.
  change (motd_cfg !! "guest-init") with (@None value) in Hi.
  change (motd_cfg !! "runSpec") with (@None value) in Hr.
  destruct Hb as (s & i & Es & Ei & ->). inversion Es; subst s.
  inversion Ei; subst i.
  destruct Hf as (l & i & mk & El & Ei' & _ & ->). inversion El; subst l.
  inversion Ei'; subst i. subst t3. exists mk. exact Hr.
Defined.
